(** * BzDeck: attachment model, account data source and bug timeline

    A shallow embedding of three pieces of the BzDeck client:
    - [AttachmentModel] ([fetch], [get_data], [save]),
    - [AccountDataSource.onupgradeneeded] (the IndexedDB schema upgrade),
    - the constructor of [BugTimelineView] (merge, sort and marking of the
      timeline entries).

    Promises are modelled by their outcome ([Resolved] or [Rejected]); the
    objects an operation mutates are threaded through as an explicit state,
    which also records the calls that were started without [await] and have
    not run to their end. *)

From stdpp Require Import gmap strings list fin_maps sorting.
From Stdlib Require Import ZArith Lia.

Open Scope Z_scope.

(** ** Outcomes of promises and of throwing code *)

(** [this.id] of an attachment: the Bugzilla id, or the hash of an attachment
    that has not been uploaded yet. *)
Abbreviation ident := (Z + string)%type.

Inductive error :=
  | TypeError                          (* a property read on [undefined] *)
  | RemoteUnavailable                  (* [BzDeck.host.request] rejected *)
  | PlainError                         (* [throw new Error()] *)
  | AttachmentUnavailable (i : ident)  (* "The attachment ${id} could not be retrieved from Bugzilla." *)
  | ConstraintError                    (* IndexedDB: the store or index exists already *)
  | NotFoundError.                     (* IndexedDB: no such store or index *)

Inductive outcome (A : Type) :=
  | Resolved (a : A)
  | Rejected (e : error).
Arguments Resolved {A} a.
Arguments Rejected {A} e.

#[global] Instance outcome_ret : MRet outcome := fun A a => Resolved a.
#[global] Instance outcome_bind : MBind outcome := fun A B f m =>
  match m with
  | Resolved a => f a
  | Rejected e => Rejected e
  end.

Definition is_resolved {A} (o : outcome A) : bool :=
  match o with Resolved _ => true | Rejected _ => false end.

(** JavaScript truthiness of an optional string: [undefined] and the empty
    string are falsy. *)
Definition truthy (o : option string) : bool :=
  match o with
  | Some s => negb (String.eqb s "")
  | None => false
  end.

(** Dates arrive as ISO 8601 strings; a date string is represented by the
    instant it denotes, in milliseconds since the epoch, so that
    [(new Date(str)).getTime()] reads it off. *)
Definition date_string := Z.

(** ** Data model *)

(** Bugzilla's raw attachment object, or an attachment not uploaded yet. *)
Record Attachment := {
  att_id : option Z;
  att_hash : option string;
  att_bug_id : Z;
  att_creation_time : date_string;
  att_is_patch : bool;
  att_content_type : string;
  att_data : option string;        (* base64 payload, fetched lazily *)
}.

Record Comment := {
  comment_id : Z;
  comment_creation_time : date_string;
  comment_text : string;
}.

Record History := {
  history_when : date_string;
  history_who : string;
}.

Record Bug := {
  bug_id : Z;
  bug_comments : list Comment;
  bug_attachments : option (list Attachment);
  bug_history : list History;
  bug_last_visit : option date_string;    (* the [_last_visit] annotation *)
}.

Definition set_att_data (v : option string) (a : Attachment) : Attachment :=
  {| att_id := att_id a; att_hash := att_hash a; att_bug_id := att_bug_id a;
     att_creation_time := att_creation_time a; att_is_patch := att_is_patch a;
     att_content_type := att_content_type a; att_data := v |}.

Definition set_bug_attachments (l : option (list Attachment)) (b : Bug) : Bug :=
  {| bug_id := bug_id b; bug_comments := bug_comments b; bug_attachments := l;
     bug_history := bug_history b; bug_last_visit := bug_last_visit b |}.

(** ** The attachment model *)

Module AttachmentModel.

(** A request to [bug/attachment/${id}], with the optional
    [include_fields] query. *)
Record request := {
  req_attachment : ident;
  req_include_fields : option string;
}.

(** The parsed response: [result.attachments] maps ids to records. *)
Record response := {
  res_attachments : option (gmap ident Attachment);
}.

(** [BzDeck.host.request]: [None] when the promise is rejected. *)
Definition host := request → option response.

Definition Uint8Array := list Byte.byte.
Record Blob := { blob_bytes : list Byte.byte; blob_type : string }.

(** The message posted back by the [decode] task of the shared worker. *)
Record worker_message := {
  binary : Uint8Array;
  blob : Blob;
}.

(** The [decode] task of [/static/scripts/workers/tasks.js], given the
    base64 string and the content type. *)
Definition worker := option string → string → worker_message.

(** The instance: [this.id] and [this.data] ([None] is [undefined]). *)
Record model := {
  id : ident;
  data : option Attachment;
}.

(** A call that was started and is not awaited: it suspends at its first
    [await], and what is left of it runs at some later time. The only such
    call here is [this.save()]. *)
Inductive task := SaveTask.

(** What the operations read and write: the instance itself, the two
    collections, the persisted [bugs] object store with the log of writes
    to it, the log of network requests, and the calls that were started
    and have not run to their end yet. *)
Record state := {
  this : model;
  bugs : gmap Z Bug;                    (* BzDeck.collections.bugs *)
  attachments : gmap ident Attachment;  (* BzDeck.collections.attachments *)
  bug_store : gmap Z Bug;
  store_writes : list Z;
  requests : list request;
  pending : list task;
}.

Definition async (A : Type) := state → outcome A * state.

#[global] Instance async_ret : MRet async := fun A a s => (Resolved a, s).
#[global] Instance async_bind : MBind async := fun A B f m s =>
  match m s with
  | (Resolved a, s') => f a s'
  | (Rejected e, s') => (Rejected e, s')
  end.

Definition throw {A} (e : error) : async A := fun s => (Rejected e, s).
Definition try_catch {A} (body : async A) (handler : error → async A) : async A :=
  fun s =>
    match body s with
    | (Resolved a, s') => (Resolved a, s')
    | (Rejected e, s') => handler e s'
    end.
Definition get_this : async model := fun s => (Resolved (this s), s).
Definition this_id : async ident := fun s => (Resolved (id (this s)), s).
Definition modify (f : state → state) : async unit := fun s => (Resolved (), f s).

(** [this.data = d] *)
Definition set_data (d : option Attachment) (s : state) : state :=
  {| this := {| id := id (this s); data := d |}; bugs := bugs s;
     attachments := attachments s; bug_store := bug_store s;
     store_writes := store_writes s; requests := requests s; pending := pending s |}.

Definition log_request (r : request) (s : state) : state :=
  {| this := this s; bugs := bugs s; attachments := attachments s;
     bug_store := bug_store s; store_writes := store_writes s;
     requests := requests s ++ [r]; pending := pending s |}.

(** Modelled from the spec: [BzDeck.collections.attachments.set], which is
    not part of the sources at hand; it replaces or creates the cached
    entity's backing data. *)
Definition attachments_set (i : ident) (d : Attachment) (s : state) : state :=
  {| this := this s; bugs := bugs s; attachments := <[i:=d]> (attachments s);
     bug_store := bug_store s; store_writes := store_writes s;
     requests := requests s; pending := pending s |}.

(** The assignments [bug.attachments[index].data = ...] act on the cached
    bug, the one found under [key] in the collection. *)
Definition bugs_update (key : Z) (b : Bug) (s : state) : state :=
  {| this := this s; bugs := <[key:=b]> (bugs s); attachments := attachments s;
     bug_store := bug_store s; store_writes := store_writes s;
     requests := requests s; pending := pending s |}.

(** Modelled from the spec: [BugModel.save], which is not part of the
    sources at hand; it persists the given data to the Local Store under
    the entity's id. *)
Definition bug_save (b : Bug) (s : state) : state :=
  {| this := this s; bugs := bugs s; attachments := attachments s;
     bug_store := <[bug_id b:=b]> (bug_store s);
     store_writes := store_writes s ++ [bug_id b];
     requests := requests s; pending := pending s |}.

Definition schedule (t : task) (s : state) : state :=
  {| this := this s; bugs := bugs s; attachments := attachments s;
     bug_store := bug_store s; store_writes := store_writes s;
     requests := requests s; pending := pending s ++ [t] |}.


(** A call without [await]: the caller goes on at once, with the call
    pending; whether the call is rejected later is of no concern to the
    caller. *)
Definition detached (t : task) : async unit := modify (schedule t).

(** [this.data.prop]: a [TypeError] when [this.data] is [undefined]. *)
Definition this_data : async Attachment := fun s =>
  match data (this s) with
  | Some d => (Resolved d, s)
  | None => (Rejected TypeError, s)
  end.

(** [await BzDeck.host.request(...)] *)
Definition host_request (h : host) (r : request) : async response := fun s =>
  match h r with
  | Some res => (Resolved res, log_request r s)
  | None => (Rejected RemoteUnavailable, log_request r s)
  end.

(** [result.attachments[this.id]] *)
Definition result_attachment (res : response) (i : ident) : async (option Attachment) :=
  match res_attachments res with
  | Some m => mret (m !! i)
  | None => throw TypeError
  end.

(** [BzDeck.collections.bugs.get(id)] *)
Definition bugs_get (i : Z) : async (option Bug) := fun s => (Resolved (bugs s !! i), s).

(** [att.id === this.id] *)
Definition id_strict_eq (a : option Z) (i : ident) : bool :=
  match a, i with
  | Some n, inl m => bool_decide (n = m)
  | _, _ => false
  end.

(** [super(data.id || data.hash)] followed by [this.data = data] *)
Definition constructor (d : Attachment) : option model :=
  let i := match att_id d with
           | Some n => if bool_decide (n = 0) then inr <$> att_hash d else Some (inl n)
           | None => inr <$> att_hash d
           end in
  (λ i, {| id := i; data := Some d |}) <$> i.

(** *** fetch *)
Definition fetch (h : host) : async model :=
  i ← this_id;
  result ← host_request h {| req_attachment := i; req_include_fields := None |};
  a ← result_attachment result i;
  modify (set_data a);;
  get_this.

(** *** save *)

(** The body of the loop over [bug.attachments.entries()]. *)
Definition fill_stub (i : ident) (payload : option string) (att : Attachment) : Attachment :=
  if id_strict_eq (att_id att) i && negb (truthy (att_data att))
  then set_att_data payload att
  else att.

Definition save : async model :=
  d ← this_data;
  i ← this_id;
  bug ← bugs_get (att_bug_id d);
  match bug with
  | Some b =>
      match bug_attachments b with
      | Some (att :: atts) =>
          let b' := set_bug_attachments
                      (Some (fill_stub i (att_data d) <$> (att :: atts))) b in
          modify (bugs_update (att_bug_id d) b');;
          modify (bug_save b')
      | _ => mret ()
      end
  | None => mret ()
  end;;
  get_this.



(** *** get_data *)
Record data_result := {
  res_blob : Blob;
  res_text : option Uint8Array;
  res_attachment : model;
}.

Section get_data.
Context (tasks : worker).

Definition decode : async data_result :=
  d ← this_data;
  me ← get_this;
  let msg := tasks (att_data d) (att_content_type d) in
  let text := if att_is_patch d || String.prefix "text/" (att_content_type d)
              then Some (binary msg) else None in
  mret {| res_blob := blob msg; res_text := text; res_attachment := me |}.

Definition get_data (h : host) : async data_result :=
  d ← this_data;
  if truthy (att_data d) then decode
  else
    try_catch
      (i ← this_id;
       result ← host_request h {| req_attachment := i; req_include_fields := Some "data" |};
       attachment ← result_attachment result i;
       let data := match attachment with
                   | Some a => if truthy (att_data a) then att_data a else None
                   | None => None
                   end in
       (if negb (truthy data) then throw PlainError else mret ());;
       modify (set_data (Some (set_att_data data d)));;
       modify (attachments_set i (set_att_data data d));;
       detached SaveTask;;
       decode)
      (λ _, i ← this_id; throw (AttachmentUnavailable i)).
End get_data.

End AttachmentModel.

(** ** The account data source *)

Module AccountDataSource.

(** The schema of an IndexedDB database: its object stores, each with a key
    path and its indexes. *)
Record index := {
  index_key_path : string;
  index_unique : bool;
}.

Record object_store := {
  key_path : string;
  indexes : gmap string index;
}.

Abbreviation database := (gmap string object_store).

(** [database.createObjectStore(name, { keyPath })] *)
Definition createObjectStore (name keyPath : string) (db : database) : outcome database :=
  match db !! name with
  | Some _ => Rejected ConstraintError
  | None => Resolved (<[name := {| key_path := keyPath; indexes := ∅ |}]> db)
  end.

(** [store.createIndex(name, keyPath, { unique })] on the store [store] *)
Definition createIndex (store name keyPath : string) (unique : bool) (db : database)
    : outcome database :=
  match db !! store with
  | Some st =>
      match indexes st !! name with
      | Some _ => Rejected ConstraintError
      | None =>
          Resolved (<[store := {| key_path := key_path st;
                                  indexes := <[name := {| index_key_path := keyPath;
                                                          index_unique := unique |}]>
                                               (indexes st) |}]> db)
      end
  | None => Rejected NotFoundError
  end.

(** [transaction.objectStore(store).deleteIndex(name)] *)
Definition deleteIndex (store name : string) (db : database) : outcome database :=
  match db !! store with
  | Some st =>
      match indexes st !! name with
      | Some _ =>
          Resolved (<[store := {| key_path := key_path st;
                                  indexes := delete name (indexes st) |}]> db)
      | None => Rejected NotFoundError
      end
  | None => Rejected NotFoundError
  end.

(** The block guarded by [event.oldVersion < 1]. *)
Definition create_initial_stores (db : database) : outcome database :=
  db ← createObjectStore "bugs" "id" db;
  db ← createIndex "bugs" "alias" "alias" true db;
  db ← createObjectStore "users" "name" db;
  db ← createIndex "users" "id" "id" true db;
  createObjectStore "prefs" "name" db.

(** The block guarded by [event.oldVersion < 2]. *)
Definition drop_alias_index (db : database) : outcome database :=
  deleteIndex "bugs" "alias" db.

Definition onupgradeneeded (oldVersion : Z) (db : database) : outcome database :=
  db ← (if oldVersion <? 1 then create_initial_stores db else mret db);
  db ← (if oldVersion <? 2 then drop_alias_index db else mret db);
  mret db.

(** The two shapes, as the specification words them: version 1 has the
    three stores and a unique index on [bugs.alias]; version 2 has the
    stores [bugs] (key [id]), [users] (key [name], unique index on [id]) and
    [prefs] (key [name]). *)
Definition users_store : object_store :=
  {| key_path := "name";
     indexes := {[ "id" := {| index_key_path := "id"; index_unique := true |} ]} |}.

Definition prefs_store : object_store :=
  {| key_path := "name"; indexes := ∅ |}.

Definition spec_schema_v1 : database :=
  {[ "bugs" := {| key_path := "id";
                  indexes := {[ "alias" := {| index_key_path := "alias";
                                              index_unique := true |} ]} |};
     "users" := users_store;
     "prefs" := prefs_store ]}.

Definition spec_schema_v2 : database :=
  {[ "bugs" := {| key_path := "id"; indexes := ∅ |};
     "users" := users_store;
     "prefs" := prefs_store ]}.

End AccountDataSource.

(** ** JavaScript [Map]: keys in insertion order *)

Module JsMap.
Section ops.
Context {K V : Type} `{!EqDecision K}.

(** [map.set(k, v)]: an existing key keeps its place, a new one goes last. *)
Fixpoint set (k : K) (v : V) (m : list (K * V)) : list (K * V) :=
  match m with
  | [] => [(k, v)]
  | (k', v') :: m' =>
      if decide (k = k') then (k, v) :: m' else (k', v') :: set k v m'
  end.

(** [map.get(k)] *)
Fixpoint get (k : K) (m : list (K * V)) : option V :=
  match m with
  | [] => None
  | (k', v') :: m' => if decide (k = k') then Some v' else get k m'
  end.

(** [map.has(k)] *)
Definition has (k : K) (m : list (K * V)) : bool :=
  match get k m with Some _ => true | None => false end.

(** [new Map(iterable)] *)
Definition from_entries (l : list (K * V)) : list (K * V) :=
  foldl (λ m kv, set kv.1 kv.2 m) [] l.

Definition keys (m : list (K * V)) : list K := m.*1.
End ops.
End JsMap.

(** ** [Array.prototype.sort] *)

(** The order [sort] produces is fixed by ECMAScript only for a consistent
    comparator, one that returns a negative number, zero or a positive number.
    Engines differ in which sign they look at. Both are modelled by a stable
    insertion sort that searches the insertion point from the right end of the
    sorted prefix:
    - [SpiderMonkey] moves the new element to the left past [y] as long as
      [comparefn(y, x) > 0];
    - [V8] (and JavaScriptCore) moves it to the left past [y] only when
      [comparefn(x, y) < 0]. *)
Inductive engine := SpiderMonkey | V8.

Module ArraySort.
Section sort.
Context {A : Type} (e : engine) (comparefn : A → A → Z).

Definition moves_past (y x : A) : bool :=
  match e with
  | SpiderMonkey => bool_decide (0 < comparefn y x)
  | V8 => bool_decide (comparefn x y < 0)
  end.

(** [prefix] is the sorted prefix in reverse: its head is its last
    element. *)
Fixpoint insert (x : A) (prefix : list A) : list A :=
  match prefix with
  | [] => [x]
  | y :: prefix' =>
      if moves_past y x then y :: insert x prefix' else x :: y :: prefix'
  end.

Definition sort (l : list A) : list A :=
  reverse (foldl (λ prefix x, insert x prefix) [] l).
End sort.
End ArraySort.

(** ** The timeline of a bug *)

Module BugTimelineView.

(** The values an entry's [Map] holds under the keys ['comment'],
    ['attachment'], ['history'], ['time'], ['rendering']. *)
Inductive value :=
  | VComment (c : Comment)
  | VAttachment (a : Attachment)
  | VHistory (h : History)
  | VTime (t : Z)
  | VBool (b : bool).

Abbreviation entry_data := (list (string * value)).
Abbreviation entry_map := (list (Z * entry_data)).

(** [str => (new Date(str)).getTime()] *)
Definition get_time (str : date_string) : Z := str.

(** A [for ... of] loop whose body may throw. *)
Fixpoint for_of {A S : Type} (body : S → A → outcome S) (l : list A) (s : S) : outcome S :=
  match l with
  | [] => Resolved s
  | x :: l' => s' ← body s x; for_of body l' s'
  end.

Definition comment_entries (comments : list Comment) : entry_map :=
  JsMap.from_entries
    ((λ comment, (get_time (comment_creation_time comment),
                  JsMap.from_entries [("comment", VComment comment)])) <$> comments).

(** [entries.get(get_time(attachment.creation_time)).set('attachment', attachment)] *)
Definition add_attachment (entries : entry_map) (attachment : Attachment) : outcome entry_map :=
  let time := get_time (att_creation_time attachment) in
  match JsMap.get time entries with
  | Some data => Resolved (JsMap.set time (JsMap.set "attachment" (VAttachment attachment) data) entries)
  | None => Rejected TypeError
  end.

Definition add_history (entries : entry_map) (_history : History) : entry_map :=
  let time := get_time (history_when _history) in
  match JsMap.get time entries with
  | Some data => JsMap.set time (JsMap.set "history" (VHistory _history) data) entries
  | None => JsMap.set time (JsMap.from_entries [("history", VHistory _history)]) entries
  end.

(** [(a, b) => a[0] > b[0]]: a boolean, read as the number 1 or 0. *)
Definition by_time (a b : Z * entry_data) : Z :=
  if bool_decide (a.1 > b.1) then 1 else 0.

(** The merge of comments, attachments and history, before sorting. *)
Definition merge (bug : Bug) : outcome entry_map :=
  let entries := comment_entries (bug_comments bug) in
  attachments ← match bug_attachments bug with
                | Some l => Resolved l
                | None => Rejected TypeError
                end;
  entries ← for_of add_attachment attachments entries;
  mret (foldl add_history entries (bug_history bug)).

Record marking := {
  read_comments_num : nat;
  last_comment_time : option Z;
}.

(** [!delayed && this.bug._last_visit && time < get_time(this.bug._last_visit)] *)
Definition is_read (delayed : bool) (last_visit : option date_string) (time : Z) : bool :=
  negb delayed &&
  match last_visit with
  | Some v => bool_decide (time < get_time v)
  | None => false
  end.

Definition mark_entry (delayed : bool) (last_visit : option date_string)
    (m : marking) (entry : Z * entry_data) : marking * (Z * entry_data) :=
  let time := entry.1 in
  let data := JsMap.set "time" (VTime time) entry.2 in
  if is_read delayed last_visit time then
    (if JsMap.has "comment" data
     then {| read_comments_num := S (read_comments_num m);
             last_comment_time := Some time |}
     else m,
     (time, data))
  else (m, (time, JsMap.set "rendering" (VBool true) data)).

Fixpoint mark_entries (delayed : bool) (last_visit : option date_string)
    (m : marking) (entries : entry_map) : marking * entry_map :=
  match entries with
  | [] => (m, [])
  | entry :: entries' =>
      let (m1, entry') := mark_entry delayed last_visit m entry in
      let (m2, marked) := mark_entries delayed last_visit m1 entries' in
      (m2, entry' :: marked)
  end.

(** [data.has('rendering') || time >= last_comment_time] *)
Definition rendered_at_once (m : marking) (entry : Z * entry_data) : bool :=
  JsMap.has "rendering" entry.2 ||
  match last_comment_time m with
  | Some t => bool_decide (entry.1 >= t)
  | None => false
  end.

(** What the constructor leaves in the view: [this.entries], the entries
    handed to [generate_entries] at once, and the number shown by the
    expander if there is one. *)
Record view := {
  entries : entry_map;
  data_arr : list entry_data;
  expander : option nat;
}.

Definition constructor (e : engine) (bug : Bug) (delayed : bool) : outcome view :=
  merged ← merge bug;
  let sorted := JsMap.from_entries (ArraySort.sort e by_time merged) in
  let (m, marked) :=
    mark_entries delayed (bug_last_visit bug)
      {| read_comments_num := 0; last_comment_time := None |} sorted in
  mret {| entries := marked;
          data_arr := (filter (λ entry, rendered_at_once m entry = true) marked).*2;
          expander := if bool_decide (1 < read_comments_num m)%nat
                      then Some (read_comments_num m - 1)%nat else None |}.

End BugTimelineView.

(** ** Properties of the attachment model *)

Module AttachmentFacts.
Import AttachmentModel.

(** Unfolds the monadic plumbing of an operation applied to a state. *)
Ltac run :=
  unfold try_catch, detached, throw, modify, host_request, result_attachment,
    bugs_get, this_data, this_id, get_this,
    mbind, mret, async_bind, async_ret in *;
  cbn beta iota zeta in *.

(** The payload is present locally: [this.data.data] is truthy. *)
Definition payload_present (s : state) : Prop :=
  ∃ d, data (this s) = Some d ∧ truthy (att_data d) = true.

(** The text projection is wanted for patches and [text/*] content. *)
Definition textual (d : Attachment) : bool :=
  att_is_patch d || String.prefix "text/" (att_content_type d).

(** A sample attachment of bug 42, without payload, and a state around it. *)
Definition att7 : Attachment :=
  {| att_id := Some 7; att_hash := None; att_bug_id := 42;
     att_creation_time := 1000; att_is_patch := false;
     att_content_type := "image/png"; att_data := None |}.

Definition bug42 (atts : option (list Attachment)) : Bug :=
  {| bug_id := 42; bug_comments := []; bug_attachments := atts;
     bug_history := []; bug_last_visit := None |}.

Definition state_of (d : option Attachment) (bs : gmap Z Bug) : state :=
  {| this := {| id := inl 7; data := d |}; bugs := bs; attachments := ∅;
     bug_store := ∅; store_writes := []; requests := []; pending := [] |}.

(** A tracker whose response has no record at all. *)
Definition host_no_record : host :=
  λ _, Some {| res_attachments := Some ∅ |}.

(** A tracker that answers with the payload ["aGk="] for attachment 7. *)
Definition host_payload : host :=
  λ _, Some {| res_attachments := Some {[ inl 7 := set_att_data (Some "aGk=") att7 ]} |}.

(** A stand-in for the decoding task: it hands the characters of the
    string back as bytes. *)
Definition tasks_stub : worker := λ str type,
  let bytes := match str with
               | Some s => String.list_byte_of_string s
               | None => []
               end in
  {| binary := bytes; blob := {| blob_bytes := bytes; blob_type := type |} |}.

(** *** Equations of the operations *)

(** The state [save] leaves behind, for an instance whose record is [d]. *)
Definition saved (d : Attachment) (s : state) : state :=
  match bugs s !! att_bug_id d with
  | Some b =>
      match bug_attachments b with
      | Some (att :: atts) =>
          let b' := set_bug_attachments
                      (Some (fill_stub (id (this s)) (att_data d) <$> (att :: atts))) b in
          bug_save b' (bugs_update (att_bug_id d) b' s)
      | _ => s
      end
  | None => s
  end.

Lemma save_eq (s : state) (d : Attachment) :
  data (this s) = Some d → save s = (Resolved (this s), saved d s).
Proof.
  intros Hd. unfold save, saved. run. rewrite Hd.
  destruct (bugs s !! att_bug_id d) as [b|]; [|done].
  destruct (bug_attachments b) as [[|att atts]|]; done.
Qed.

Lemma saved_this (d : Attachment) (s : state) : this (saved d s) = this s.
Proof.
  unfold saved. destruct (bugs s !! att_bug_id d) as [b|]; [|done].
  destruct (bug_attachments b) as [[|att atts]|]; done.
Qed.

Lemma saved_requests (d : Attachment) (s : state) : requests (saved d s) = requests s.
Proof.
  unfold saved. destruct (bugs s !! att_bug_id d) as [b|]; [|done].
  destruct (bug_attachments b) as [[|att atts]|]; done.
Qed.

(** The result of decoding the record [d]. *)
Definition decoded (tasks : worker) (d : Attachment) (me : model) : data_result :=
  let msg := tasks (att_data d) (att_content_type d) in
  {| res_blob := blob msg;
     res_text := if textual d then Some (binary msg) else None;
     res_attachment := me |}.

Lemma decode_eq (tasks : worker) (s : state) (d : Attachment) :
  data (this s) = Some d → decode tasks s = (Resolved (decoded tasks d (this s)), s).
Proof. intros Hd. unfold decode. run. by rewrite Hd. Qed.

Lemma get_data_present_eq (tasks : worker) (h : host) (s : state) (d : Attachment) :
  data (this s) = Some d → truthy (att_data d) = true →
  get_data tasks h s = decode tasks s.
Proof. intros Hd Ht. unfold get_data. run. by rewrite Hd, Ht. Qed.

(** The state in which the payload [v], just received, has been written to
    the instance and to the collection, and the save of the instance has
    been started. *)
Definition received (d : Attachment) (v : option string) (r : request) (s : state) : state :=
  let d' := set_att_data v d in
  schedule SaveTask
    (attachments_set (id (this s)) d' (set_data (Some d') (log_request r s))).

Lemma get_data_absent_eq (tasks : worker) (h : host) (s : state) (d : Attachment) :
  data (this s) = Some d → truthy (att_data d) = false →
  let r := {| req_attachment := id (this s); req_include_fields := Some "data" |} in
  get_data tasks h s =
    match h r with
    | Some res =>
        match res_attachments res with
        | Some m =>
            match m !! id (this s) with
            | Some a =>
                if truthy (att_data a)
                then (Resolved (decoded tasks (set_att_data (att_data a) d)
                                  {| id := id (this s);
                                     data := Some (set_att_data (att_data a) d) |}),
                      received d (att_data a) r s)
                else (Rejected (AttachmentUnavailable (id (this s))), log_request r s)
            | None => (Rejected (AttachmentUnavailable (id (this s))), log_request r s)
            end
        | None => (Rejected (AttachmentUnavailable (id (this s))), log_request r s)
        end
    | None => (Rejected (AttachmentUnavailable (id (this s))), log_request r s)
    end.
Proof.
  intros Hd Ht r. unfold get_data. run. rewrite Hd, Ht. fold r.
  destruct (h r) as [res|]; [|done].
  destruct (res_attachments res) as [m|]; [|done].
  destruct (m !! id (this s)) as [a|]; cbn; [|done].
  destruct (truthy (att_data a)) eqn:Ha; cbn; [|done].
  rewrite Ha. cbn.
  set (d' := set_att_data (att_data a) d).
  set (s1 := schedule _ _).
  by rewrite (decode_eq tasks s1 d').
Qed.

(** *** fetch *)

(** What [fetch] does when the response has no record under [this.id]. *)
Lemma fetch_omitted_record (h : host) (s : state) (m : gmap ident Attachment) :
  let r := {| req_attachment := id (this s); req_include_fields := None |} in
  h r = Some {| res_attachments := Some m |} →
  m !! id (this s) = None →
  fetch h s = (Resolved {| id := id (this s); data := None |},
               set_data None (log_request r s)).
Proof.
  intros r Hh Hm. unfold fetch. run. fold r. rewrite Hh. cbn. by rewrite Hm.
Qed.

(** C1 (the code departs from the claim): the response omits attachment 7;
    [fetch] nevertheless resolves, and [this.data], which held the
    last-known-good record [att7], has been overwritten by [undefined]. *)
Theorem fetch_omitted_record_overwrites :
  let s := state_of (Some att7) ∅ in
  (fetch host_no_record s).1 = Resolved {| id := inl 7; data := None |}
  ∧ data (this s) = Some att7
  ∧ data (this (fetch host_no_record s).2) = None.
Proof.
  intros s.
  by rewrite (fetch_omitted_record host_no_record s ∅ eq_refl (lookup_empty _)).
Qed.

(** *** get_data *)

(** C4: when the partial-fields request succeeds but carries no payload for
    this id, [get_data] is rejected with the "could not be retrieved" error
    and neither the instance nor the collections nor the store change: the
    data field is as absent as before. *)
Theorem get_data_no_payload (tasks : worker) (h : host) (s : state)
    (d : Attachment) (res : response) :
  data (this s) = Some d →
  truthy (att_data d) = false →
  h {| req_attachment := id (this s); req_include_fields := Some "data" |} = Some res →
  (∀ m a, res_attachments res = Some m → m !! id (this s) = Some a →
          truthy (att_data a) = false) →
  (get_data tasks h s).1 = Rejected (AttachmentUnavailable (id (this s)))
  ∧ this (get_data tasks h s).2 = this s
  ∧ attachments (get_data tasks h s).2 = attachments s
  ∧ bugs (get_data tasks h s).2 = bugs s
  ∧ bug_store (get_data tasks h s).2 = bug_store s
  ∧ store_writes (get_data tasks h s).2 = store_writes s.
Proof.
  intros Hd Hfalsy Hh Hres.
  rewrite (get_data_absent_eq tasks h s d Hd Hfalsy). cbn zeta. rewrite Hh.
  destruct (res_attachments res) as [m|] eqn:Hm; [|done].
  destruct (m !! id (this s)) as [a|] eqn:Ha; [|done].
  by rewrite (Hres m a eq_refl Ha).
Qed.

Lemma get_data_no_payload_witness :
  let s := state_of (Some att7) ∅ in
  (get_data tasks_stub host_no_record s).1 = Rejected (AttachmentUnavailable (inl 7))
  ∧ this (get_data tasks_stub host_no_record s).2 = this s
  ∧ attachments (get_data tasks_stub host_no_record s).2 = attachments s
  ∧ bugs (get_data tasks_stub host_no_record s).2 = bugs s
  ∧ bug_store (get_data tasks_stub host_no_record s).2 = bug_store s
  ∧ store_writes (get_data tasks_stub host_no_record s).2 = store_writes s.
Proof.
  intros s.
  apply (get_data_no_payload tasks_stub host_no_record s att7
           {| res_attachments := Some ∅ |}).
  - reflexivity.
  - reflexivity.
  - reflexivity.
  - intros m a Hm Ha. simpl in Hm. inversion Hm; subst m.
    rewrite lookup_empty in Ha. discriminate.
Defined.

(** C5: with the payload present locally, [get_data] goes straight to
    decoding, resolves, and leaves the state, hence the log of network
    requests, as it was; so of two calls in succession, the second issues
    no request whenever the payload is present after the first. *)
Theorem get_data_cached_no_request (tasks : worker) (h : host) (s : state) :
  (payload_present s →
     get_data tasks h s = decode tasks s
     ∧ is_resolved (get_data tasks h s).1 = true
     ∧ (get_data tasks h s).2 = s)
  ∧ (payload_present (get_data tasks h s).2 →
     requests (get_data tasks h (get_data tasks h s).2).2
     = requests (get_data tasks h s).2).
Proof.
  assert (Hpresent : ∀ s0, payload_present s0 →
            get_data tasks h s0 = decode tasks s0
            ∧ is_resolved (get_data tasks h s0).1 = true
            ∧ (get_data tasks h s0).2 = s0).
  { intros s0 (d & Hd & Ht).
    rewrite (get_data_present_eq tasks h s0 d Hd Ht).
    by rewrite (decode_eq tasks s0 d Hd). }
  split; [apply Hpresent|].
  intros Hp. destruct (Hpresent _ Hp) as (_ & _ & Hs). by rewrite Hs.
Qed.

Lemma get_data_cached_no_request_witness :
  let s := state_of (Some att7) ∅ in
  let s1 := (get_data tasks_stub host_payload s).2 in
  payload_present s1
  ∧ requests s1 = [{| req_attachment := inl 7; req_include_fields := Some "data" |}]
  ∧ requests (get_data tasks_stub host_payload s1).2 = requests s1.
Proof.
  intros s s1.
  assert (Hp : payload_present s1).
  { exists (set_att_data (Some "aGk=") att7). split; reflexivity. }
  split; [exact Hp|]. split; [reflexivity|].
  exact (proj2 (get_data_cached_no_request tasks_stub host_payload s) Hp).
Defined.

(** A resolved [get_data] is the decoding of the instance's record, whose
    patch flag and content type are those it started with. *)
Lemma get_data_resolved (tasks : worker) (h : host) (s s' : state)
    (d : Attachment) (r : data_result) :
  data (this s) = Some d →
  get_data tasks h s = (Resolved r, s') →
  ∃ msg : worker_message,
    res_blob r = blob msg
    ∧ res_text r = (if textual d then Some (binary msg) else None).
Proof.
  intros Hd. destruct (truthy (att_data d)) eqn:Ht.
  - rewrite (get_data_present_eq tasks h s d Hd Ht), (decode_eq tasks s d Hd).
    intros [= <- <-]. unfold decoded. cbn. eauto.
  - rewrite (get_data_absent_eq tasks h s d Hd Ht). cbn zeta.
    destruct (h _) as [res|]; [|done].
    destruct (res_attachments res) as [m|]; [|done].
    destruct (m !! id (this s)) as [a|]; [|done].
    destruct (truthy (att_data a)); [|done].
    intros [= <- <-]. unfold decoded. cbn. eauto.
Qed.

(** [str.startsWith(p)], spelt out. *)
Lemma prefix_app (p s : string) :
  String.prefix p s = true ↔ ∃ rest, s = String.append p rest.
Proof.
  revert s. induction p as [|a p IH]; intros s.
  - split; [by exists s | by destruct s].
  - assert (Happ : ∀ r, String.append (String a p) r = String a (String.append p r))
      by reflexivity.
    destruct s as [|b s]; cbn [String.prefix].
    + split; [done | intros [rest E]; rewrite Happ in E; discriminate E].
    + destruct (Ascii.ascii_dec a b) as [<-|Hne].
      * rewrite IH. split; intros [rest E]; exists rest; rewrite Happ in *; congruence.
      * split; [done | intros [rest E]; rewrite Happ in E; congruence].
Qed.

(** C8: whenever [get_data] resolves, its result carries the text
    projection exactly when the attachment is a patch or its content type
    starts with ["text/"]; for any other content the text is absent. *)
Theorem get_data_text_projection (tasks : worker) (h : host) (s s' : state)
    (d : Attachment) (r : data_result) :
  data (this s) = Some d →
  get_data tasks h s = (Resolved r, s') →
  (is_Some (res_text r)
     ↔ att_is_patch d = true ∨ ∃ rest, att_content_type d = String.append "text/" rest)
  ∧ (att_is_patch d = false → String.prefix "text/" (att_content_type d) = false →
     res_text r = None).
Proof.
  intros Hd Hget.
  destruct (get_data_resolved tasks h s s' d r Hd Hget) as (msg & _ & ->).
  unfold textual. rewrite <- prefix_app.
  destruct (att_is_patch d), (String.prefix "text/" (att_content_type d)); cbn;
    (split; [split|]); try done; eauto.
  - intros [?|?]; done.
Qed.

Lemma get_data_text_projection_witness :
  let txt :=
    {| att_id := Some 7; att_hash := None; att_bug_id := 42;
       att_creation_time := 1000; att_is_patch := false;
       att_content_type := "text/plain"; att_data := Some "aGk=" |} in
  (∃ r, (get_data tasks_stub host_payload (state_of (Some att7) ∅)).1 = Resolved r
        ∧ res_text r = None)
  ∧ (∃ r, (get_data tasks_stub host_payload (state_of (Some txt) ∅)).1 = Resolved r
          ∧ is_Some (res_text r)).
Proof.
  intros txt. split.
  - destruct (get_data tasks_stub host_payload (state_of (Some att7) ∅))
      as [[r|e] s'] eqn:E; [|discriminate E].
    exists r. split; [reflexivity|].
    apply (get_data_text_projection tasks_stub host_payload
             (state_of (Some att7) ∅) s' att7 r); [reflexivity|exact E|..];
      reflexivity.
  - destruct (get_data tasks_stub host_payload (state_of (Some txt) ∅))
      as [[r|e] s'] eqn:E; [|discriminate E].
    exists r. split; [reflexivity|].
    apply (get_data_text_projection tasks_stub host_payload
             (state_of (Some txt) ∅) s' txt r); [reflexivity|exact E|].
    right. by exists "plain".
Defined.

(** *** save *)

(** After the loop, an entry carrying [this.id] has a payload as soon as
    the instance has one. *)
Lemma fill_stub_payload (n : Z) (v : option string) (att : Attachment) :
  truthy v = true →
  att_id (fill_stub (inl n) v att) = Some n →
  truthy (att_data (fill_stub (inl n) v att)) = true.
Proof.
  intros Hv. unfold fill_stub, id_strict_eq.
  destruct (att_id att) as [k|] eqn:Hk; cbn.
  - case_bool_decide as Hkn; cbn.
    + destruct (truthy (att_data att)) eqn:Ha; cbn; done.
    + rewrite Hk. congruence.
  - by rewrite Hk.
Qed.

Lemma fill_stub_stub (n : Z) (v : option string) (stub : Attachment) :
  att_id stub = Some n → truthy (att_data stub) = false →
  fill_stub (inl n) v stub = set_att_data v stub.
Proof.
  intros Hid Hfalsy. unfold fill_stub, id_strict_eq.
  by rewrite Hid, Hfalsy, bool_decide_eq_true_2.
Qed.

(** C6: saving an attachment with a populated payload, whose parent bug is
    cached with a data-less stub for its id: the bug written to the store
    (and the cached one) has the payload in that stub, every entry of its
    attachment list with this id has a non-empty payload, and the bug has
    been written to the store once more. *)
Theorem save_updates_parent_bug (s : state) (n : Z) (d : Attachment) (b : Bug)
    (atts : list Attachment) (stub : Attachment) :
  this s = {| id := inl n; data := Some d |} →
  truthy (att_data d) = true →
  bugs s !! att_bug_id d = Some b →
  bug_attachments b = Some atts →
  stub ∈ atts →
  att_id stub = Some n →
  truthy (att_data stub) = false →
  ∃ (b' : Bug) (atts' : list Attachment),
    (save s).1 = Resolved (this s)
    ∧ bug_store (save s).2 !! bug_id b = Some b'
    ∧ bugs (save s).2 !! att_bug_id d = Some b'
    ∧ store_writes (save s).2 = store_writes s ++ [bug_id b]
    ∧ bug_attachments b' = Some atts'
    ∧ set_att_data (att_data d) stub ∈ atts'
    ∧ ∀ a, a ∈ atts' → att_id a = Some n → truthy (att_data a) = true.
Proof.
  intros Hthis Hd Hb Hatts Hstub Hid Hfalsy.
  assert (Hdata : data (this s) = Some d) by (by rewrite Hthis).
  rewrite (save_eq s d Hdata). unfold saved. rewrite Hb, Hatts, Hthis. cbn [id].
  destruct atts as [|a0 rest]; [by apply elem_of_nil in Hstub|].
  exists (set_bug_attachments (Some (fill_stub (inl n) (att_data d) <$> a0 :: rest)) b),
         (fill_stub (inl n) (att_data d) <$> a0 :: rest).
  cbn [fst snd bug_store bugs store_writes bug_save bugs_update].
  split; [done|]. split; [by rewrite lookup_insert_eq|].
  split; [by rewrite lookup_insert_eq|]. split; [done|]. split; [done|].
  split.
  - apply list_elem_of_fmap. exists stub. split; [|done].
    by rewrite fill_stub_stub.
  - intros a Ha Haid.
    apply list_elem_of_fmap in Ha as (a' & -> & _).
    by apply fill_stub_payload.
Qed.

Lemma save_updates_parent_bug_witness :
  let d := set_att_data (Some "aGk=") att7 in
  let s := state_of (Some d) {[ 42 := bug42 (Some [att7]) ]} in
  ∃ (b' : Bug) (atts' : list Attachment),
    (save s).1 = Resolved (this s)
    ∧ bug_store (save s).2 !! 42 = Some b'
    ∧ bugs (save s).2 !! 42 = Some b'
    ∧ store_writes (save s).2 = [42]
    ∧ bug_attachments b' = Some atts'
    ∧ d ∈ atts'
    ∧ ∀ a, a ∈ atts' → att_id a = Some 7 → truthy (att_data a) = true.
Proof.
  intros d s.
  apply (save_updates_parent_bug s 7 d (bug42 (Some [att7])) [att7] att7).
  - reflexivity.
  - reflexivity.
  - reflexivity.
  - reflexivity.
  - apply list_elem_of_here.
  - reflexivity.
  - reflexivity.
Defined.

(** C10: when the parent bug is not in the collection, or has no attachment
    list, or an empty one, [save] resolves in the instance and changes
    nothing: no bug is modified and nothing is written to the store. *)
Theorem save_without_parent_attachments (s : state) (d : Attachment) :
  data (this s) = Some d →
  (bugs s !! att_bug_id d = None
   ∨ ∃ b, bugs s !! att_bug_id d = Some b
          ∧ (bug_attachments b = None ∨ bug_attachments b = Some [])) →
  save s = (Resolved (this s), s).
Proof.
  intros Hd Hcases. rewrite (save_eq s d Hd). unfold saved.
  destruct Hcases as [-> | (b & -> & [-> | ->])]; done.
Qed.

Lemma save_without_parent_attachments_witness :
  save (state_of (Some att7) ∅)
    = (Resolved {| id := inl 7; data := Some att7 |}, state_of (Some att7) ∅)
  ∧ save (state_of (Some att7) {[ 42 := bug42 None ]})
    = (Resolved {| id := inl 7; data := Some att7 |},
       state_of (Some att7) {[ 42 := bug42 None ]})
  ∧ save (state_of (Some att7) {[ 42 := bug42 (Some []) ]})
    = (Resolved {| id := inl 7; data := Some att7 |},
       state_of (Some att7) {[ 42 := bug42 (Some []) ]}).
Proof.
  split; [|split].
  - apply (save_without_parent_attachments (state_of (Some att7) ∅) att7);
      [reflexivity | left; reflexivity].
  - apply (save_without_parent_attachments
             (state_of (Some att7) {[ 42 := bug42 None ]}) att7);
      [reflexivity | right; exists (bug42 None); split; [reflexivity | left; reflexivity]].
  - apply (save_without_parent_attachments
             (state_of (Some att7) {[ 42 := bug42 (Some []) ]}) att7);
      [reflexivity | right; exists (bug42 (Some [])); split; [reflexivity | right; reflexivity]].
Defined.

End AttachmentFacts.

(** ** Properties of the schema upgrade *)

Module AccountDataSourceFacts.
Import AccountDataSource.

(** C7: upgrading a fresh database (old version 0) yields the version-2
    shape; so does the path through version 1, where the first block alone
    yields the version-1 shape and the upgrade from old version 1 takes
    that to the version-2 shape. That shape has exactly the stores [bugs],
    [users] and [prefs], and [bugs] has no [alias] index. *)
Theorem upgrade_paths_agree :
  onupgradeneeded 0 ∅ = Resolved spec_schema_v2
  ∧ create_initial_stores ∅ = Resolved spec_schema_v1
  ∧ onupgradeneeded 1 spec_schema_v1 = Resolved spec_schema_v2
  ∧ dom spec_schema_v2 = ({[ "bugs"; "users"; "prefs" ]} : gset string)
  ∧ (∀ st, spec_schema_v2 !! "bugs" = Some st → indexes st !! "alias" = None).
Proof.
  split; [by vm_compute|]. split; [by vm_compute|]. split; [by vm_compute|].
  split; [by vm_compute|].
  intros st [= <-]. done.
Qed.

End AccountDataSourceFacts.

(** ** Facts about [Map] *)

Module JsMapFacts.
Import JsMap.
Section facts.
Context {K V : Type} `{!EqDecision K}.
Implicit Types (k : K) (v : V) (m : list (K * V)).

Lemma get_set_eq k v m : get k (set k v m) = Some v.
Proof.
  induction m as [|[k' v'] m IH]; simpl.
  - by rewrite decide_True.
  - destruct (decide (k = k')) as [->|Hne]; simpl.
    + by rewrite decide_True.
    + by rewrite decide_False.
Qed.

Lemma get_set_ne k k' v m : k ≠ k' → get k' (set k v m) = get k' m.
Proof.
  intros Hne. induction m as [|[k0 v0] m IH]; simpl.
  - by rewrite decide_False.
  - destruct (decide (k = k0)) as [->|Hne0]; simpl.
    + by rewrite !decide_False.
    + by rewrite IH.
Qed.

Lemma get_None k m : get k m = None ↔ k ∉ keys m.
Proof.
  unfold keys. induction m as [|[k' v'] m IH]; simpl.
  - split; [intros _; apply not_elem_of_nil | done].
  - rewrite not_elem_of_cons. destruct (decide (k = k')) as [->|Hne].
    + split; [done | intros [? _]; done].
    + rewrite IH. split; [by split | by intros [_ ?]].
Qed.

Lemma get_Some_elem_of k v m : get k m = Some v → (k, v) ∈ m.
Proof.
  induction m as [|[k' v'] m IH]; simpl; [done|].
  destruct (decide (k = k')) as [->|Hne].
  - intros [= ->]. apply list_elem_of_here.
  - intros H. apply list_elem_of_further. auto.
Qed.

Lemma elem_of_get k v m : NoDup (keys m) → (k, v) ∈ m → get k m = Some v.
Proof.
  unfold keys. induction m as [|[k' v'] m IH]; simpl.
  - intros _ H. by apply elem_of_nil in H.
  - intros [Hk' Hnd]%NoDup_cons [[= -> ->]|Hin]%elem_of_cons.
    + by rewrite decide_True.
    + rewrite decide_False; [auto|].
      intros ->. apply Hk'. apply list_elem_of_fmap. by exists (k', v).
Qed.

Lemma has_true k m : has k m = true ↔ k ∈ keys m.
Proof.
  unfold has. destruct (get k m) as [v|] eqn:E.
  - split; [intros _|done].
    apply list_elem_of_fmap. exists (k, v). split; [done|].
    by apply get_Some_elem_of.
  - apply get_None in E. split; [done | by intros ?].
Qed.

Lemma keys_set_old k v m : k ∈ keys m → keys (set k v m) = keys m.
Proof.
  unfold keys. induction m as [|[k' v'] m IH]; simpl.
  - intros H. by apply elem_of_nil in H.
  - destruct (decide (k = k')) as [->|Hne]; simpl; [done|].
    intros [?|Hin]%elem_of_cons; [done|]. f_equal. by apply IH.
Qed.

Lemma keys_set_new k v m : k ∉ keys m → keys (set k v m) = keys m ++ [k].
Proof.
  unfold keys. induction m as [|[k' v'] m IH]; simpl; [done|].
  intros [Hne Hnin]%not_elem_of_cons.
  rewrite decide_False by done. simpl. f_equal. by apply IH.
Qed.

Lemma NoDup_keys_set k v m : NoDup (keys m) → NoDup (keys (set k v m)).
Proof.
  intros Hnd. destruct (decide (k ∈ keys m)) as [Hin|Hnin].
  - by rewrite keys_set_old.
  - rewrite keys_set_new by done. apply NoDup_app. split; [done|].
    split; [|apply NoDup_singleton].
    intros x Hx ->%list_elem_of_singleton. done.
Qed.

End facts.
End JsMapFacts.

(** ** Facts about [sort] *)

Module ArraySortFacts.
Import ArraySort.
Section facts.
Context {A : Type} (comparefn : A → A → Z).
Implicit Types (x y : A) (l prefix : list A).

Lemma insert_perm (e : engine) x prefix : insert e comparefn x prefix ≡ₚ x :: prefix.
Proof.
  induction prefix as [|y prefix IH]; simpl; [done|].
  destruct (moves_past e comparefn y x); [|done].
  rewrite IH. apply Permutation_swap.
Qed.

Lemma foldl_insert_perm (e : engine) l prefix :
  foldl (λ prefix x, insert e comparefn x prefix) prefix l ≡ₚ prefix ++ l.
Proof.
  revert prefix. induction l as [|x l IH]; intros prefix; simpl.
  - by rewrite app_nil_r.
  - rewrite IH, insert_perm. simpl. apply Permutation_middle.
Qed.

(** Whatever the engine and the comparator, [sort] permutes its argument. *)
Lemma sort_perm (e : engine) l : sort e comparefn l ≡ₚ l.
Proof. unfold sort. by rewrite reverse_Permutation, foldl_insert_perm. Qed.

Lemma elem_of_sort (e : engine) x l : x ∈ sort e comparefn l ↔ x ∈ l.
Proof. by rewrite sort_perm. Qed.

(** An engine that looks for a negative result never moves anything when the
    comparator has none to give. *)
Lemma sort_V8_never_negative l :
  (∀ x y, 0 ≤ comparefn x y) → sort V8 comparefn l = l.
Proof.
  intros Hcmp. unfold sort.
  assert (Hfold : ∀ prefix,
            foldl (λ prefix x, insert V8 comparefn x prefix) prefix l
            = reverse l ++ prefix).
  { induction l as [|x l IH]; intros prefix; simpl; [done|].
    rewrite IH, reverse_cons, <- app_assoc. f_equal.
    destruct prefix as [|y prefix]; simpl; [done|].
    rewrite bool_decide_eq_false_2; [done|]. specialize (Hcmp x y). lia. }
  by rewrite Hfold, app_nil_r, reverse_involutive.
Qed.

(** An engine that looks for a positive result sorts, as long as the
    comparator is positive exactly on the pairs that are out of order. *)
Section positive.
Context (key : A → Z).
Hypothesis comparefn_positive : ∀ y x, 0 < comparefn y x ↔ key x < key y.

Let descending : relation A := λ a b, key b ≤ key a.
Let ascending : relation A := λ a b, key a ≤ key b.

Lemma insert_descending x prefix :
  StronglySorted descending prefix →
  StronglySorted descending (insert SpiderMonkey comparefn x prefix).
Proof.
  induction 1 as [|y prefix Hsorted IH Hy]; simpl.
  - repeat constructor.
  - case_bool_decide as Hcmp.
    + apply comparefn_positive in Hcmp. constructor; [done|].
      rewrite insert_perm. constructor; [unfold descending; lia | done].
    + rewrite comparefn_positive in Hcmp.
      constructor; [by constructor|].
      constructor; [unfold descending; lia|].
      eapply Forall_impl; [exact Hy|]. unfold descending. intros z Hz. simpl in Hz. lia.
Qed.

Lemma foldl_insert_descending l prefix :
  StronglySorted descending prefix →
  StronglySorted descending (foldl (λ prefix x, insert SpiderMonkey comparefn x prefix) prefix l).
Proof.
  revert prefix. induction l as [|x l IH]; intros prefix Hp; simpl; [done|].
  apply IH. by apply insert_descending.
Qed.

Lemma reverse_descending l :
  StronglySorted descending l → StronglySorted ascending (reverse l).
Proof.
  induction 1 as [|y l Hsorted IH Hy]; [constructor|].
  rewrite reverse_cons. apply StronglySorted_app. split; [|split; [done|]].
  - intros a b Ha ->%list_elem_of_singleton.
    rewrite elem_of_reverse in Ha. rewrite Forall_forall in Hy. exact (Hy a Ha).
  - repeat constructor.
Qed.

Lemma sort_SpiderMonkey_sorted l :
  StronglySorted (λ a b, key a ≤ key b) (sort SpiderMonkey comparefn l).
Proof.
  unfold sort. apply reverse_descending, foldl_insert_descending. constructor.
Qed.
End positive.
End facts.
End ArraySortFacts.

(** ** Facts about the timeline *)

Module TimelineFacts.
Import JsMap JsMapFacts ArraySort ArraySortFacts BugTimelineView.

(** *** [new Map(iterable)] *)
Section from_entries.
Context {K V : Type} `{!EqDecision K}.
Implicit Types (k : K) (v : V) (m l : list (K * V)).

Lemma set_new k v m : k ∉ keys m → set k v m = m ++ [(k, v)].
Proof.
  unfold keys. induction m as [|[k' v'] m IH]; simpl; [done|].
  intros [Hne Hnin]%not_elem_of_cons.
  rewrite decide_False by done. f_equal. by apply IH.
Qed.

Lemma elem_of_set k v m (x : K * V) : x ∈ set k v m → x = (k, v) ∨ x ∈ m.
Proof.
  induction m as [|[k' v'] m IH]; simpl.
  - intros ->%list_elem_of_singleton. by left.
  - destruct (decide (k = k')) as [->|Hne].
    + intros [->|Hin]%elem_of_cons; [by left|].
      right. by apply list_elem_of_further.
    + intros [->|Hin]%elem_of_cons; [right; apply list_elem_of_here|].
      destruct (IH Hin) as [->|?]; [by left|].
      right. by apply list_elem_of_further.
Qed.

Lemma foldl_set_NoDup l m :
  NoDup (keys m) → NoDup (keys (foldl (λ m kv, set kv.1 kv.2 m) m l)).
Proof.
  revert m. induction l as [|[k v] l IH]; intros m Hm; simpl; [done|].
  apply IH. by apply NoDup_keys_set.
Qed.

Lemma NoDup_keys_from_entries l : NoDup (keys (from_entries l)).
Proof. apply foldl_set_NoDup. constructor. Qed.

Lemma foldl_set_elem_of l m (x : K * V) :
  x ∈ foldl (λ m kv, set kv.1 kv.2 m) m l → x ∈ m ∨ x ∈ l.
Proof.
  revert m. induction l as [|[k v] l IH]; intros m; simpl; [by left|].
  intros [Hin|Hin]%IH.
  - apply elem_of_set in Hin as [->|?]; [right; apply list_elem_of_here | by left].
  - right. by apply list_elem_of_further.
Qed.

Lemma elem_of_from_entries l (x : K * V) : x ∈ from_entries l → x ∈ l.
Proof.
  intros [Hin|Hin]%foldl_set_elem_of; [by apply elem_of_nil in Hin | done].
Qed.

Lemma foldl_set_distinct l m :
  NoDup (keys (m ++ l)) → foldl (λ m kv, set kv.1 kv.2 m) m l = m ++ l.
Proof.
  revert m. induction l as [|[k v] l IH]; intros m Hnd; simpl.
  - by rewrite app_nil_r.
  - assert (Hk : k ∉ keys m).
    { unfold keys in *. rewrite fmap_app in Hnd. apply NoDup_app in Hnd as (_ & Hdisj & _).
      intros Hin. apply (Hdisj k Hin). simpl. apply list_elem_of_here. }
    rewrite set_new by done. rewrite IH; [by rewrite <- app_assoc|].
    by rewrite <- app_assoc.
Qed.

(** A list of entries with distinct keys is its own [Map]. *)
Lemma from_entries_distinct l : NoDup (keys l) → from_entries l = l.
Proof. intros Hnd. unfold from_entries. by rewrite foldl_set_distinct. Qed.

(** Writing one value leaves a property of all values in place. *)
Lemma Forall_values_set (P : V → Prop) k v m :
  Forall (λ e, P e.2) m → P v → Forall (λ e, P e.2) (set k v m).
Proof.
  rewrite !Forall_forall. intros Hm Hv x [->|Hin]%elem_of_set; [done | auto].
Qed.

Lemma Forall_values_get (P : V → Prop) k v m :
  Forall (λ e, P e.2) m → get k m = Some v → P v.
Proof.
  rewrite Forall_forall. intros Hm Hget%get_Some_elem_of. exact (Hm _ Hget).
Qed.
End from_entries.

(** *** The comparator *)

Lemma by_time_never_negative (a b : Z * entry_data) : 0 ≤ by_time a b.
Proof. unfold by_time. case_bool_decide; lia. Qed.

Lemma by_time_positive (a b : Z * entry_data) : 0 < by_time a b ↔ b.1 < a.1.
Proof. unfold by_time. case_bool_decide; lia. Qed.

(** *** The keys of an entry after each loop of the merge *)

Definition comment_keys : list (list string) := [["comment"]].
Definition attachment_keys : list (list string) :=
  [["comment"]; ["comment"; "attachment"]].
Definition history_keys : list (list string) :=
  [["comment"]; ["comment"; "attachment"]; ["comment"; "history"];
   ["comment"; "attachment"; "history"]; ["history"]].

Definition keyed (allowed : list (list string)) (entries : entry_map) : Prop :=
  Forall (λ e, keys e.2 ∈ allowed) entries.

Lemma comment_entries_keyed (comments : list Comment) :
  keyed comment_keys (comment_entries comments).
Proof.
  unfold keyed. rewrite Forall_forall. intros x Hx%elem_of_from_entries.
  apply list_elem_of_fmap in Hx as (c & -> & _). apply list_elem_of_here.
Qed.

Lemma keyed_weaken (allowed allowed' : list (list string)) (entries : entry_map) :
  allowed ⊆ allowed' → keyed allowed entries → keyed allowed' entries.
Proof.
  intros Hsub Hk. eapply Forall_impl; [exact Hk|]. intros e He. by apply Hsub.
Qed.

(** Writing under [k] appends [k] to the keys unless it is there already. *)
Lemma keys_set_cases (k : string) (v : value) (data : entry_data) :
  keys (set k v data) = if decide (k ∈ keys data) then keys data else keys data ++ [k].
Proof.
  case_decide; [by apply keys_set_old | by apply keys_set_new].
Qed.

(** Membership in an explicit list of lists. *)
Ltac listed := vm_compute; repeat first [apply list_elem_of_here | apply list_elem_of_further].

Lemma comment_keys_attachment_keys : comment_keys ⊆ attachment_keys.
Proof. intros x ->%list_elem_of_singleton. listed. Qed.

Lemma attachment_keys_history_keys : attachment_keys ⊆ history_keys.
Proof.
  intros x Hx. unfold attachment_keys in Hx. rewrite !elem_of_cons in Hx.
  destruct Hx as [-> | [-> | Hx]]; [listed.. | by apply elem_of_nil in Hx].
Qed.

Lemma add_attachment_keyed (entries entries' : entry_map) (a : Attachment) :
  keyed attachment_keys entries →
  add_attachment entries a = Resolved entries' →
  keyed attachment_keys entries'.
Proof.
  unfold add_attachment, keyed. intros Hk.
  destruct (get _ entries) as [data|] eqn:Hget; [|done].
  intros [= <-]. apply (Forall_values_set (λ d, keys d ∈ attachment_keys)); [done|].
  pose proof (Forall_values_get (λ d, keys d ∈ attachment_keys) _ _ _ Hk Hget) as Hd.
  simpl in Hd. rewrite keys_set_cases.
  unfold attachment_keys in *. rewrite !elem_of_cons in Hd.
  destruct Hd as [-> | [-> | Hd]]; [listed.. | by apply elem_of_nil in Hd].
Qed.

Lemma add_attachments_keyed (attachments : list Attachment) (entries entries' : entry_map) :
  keyed attachment_keys entries →
  for_of add_attachment attachments entries = Resolved entries' →
  keyed attachment_keys entries'.
Proof.
  revert entries. induction attachments as [|a attachments IH]; intros entries Hk; simpl.
  - by intros [= <-].
  - destruct (add_attachment entries a) as [entries1|] eqn:Hadd; [|done].
    simpl. apply IH. by eapply add_attachment_keyed.
Qed.

Lemma add_history_keyed (entries : entry_map) (h : History) :
  keyed history_keys entries → keyed history_keys (add_history entries h).
Proof.
  unfold add_history, keyed. intros Hk.
  destruct (get _ entries) as [data|] eqn:Hget.
  - apply (Forall_values_set (λ d, keys d ∈ history_keys)); [done|].
    pose proof (Forall_values_get (λ d, keys d ∈ history_keys) _ _ _ Hk Hget) as Hd.
    simpl in Hd. rewrite keys_set_cases.
    unfold history_keys in *. rewrite !elem_of_cons in Hd.
    destruct Hd as [-> | [-> | [-> | [-> | [-> | Hd]]]]];
      [listed.. | by apply elem_of_nil in Hd].
  - apply (Forall_values_set (λ d, keys d ∈ history_keys)); [done|]. listed.
Qed.

Lemma foldl_add_history_keyed (history : list History) (entries : entry_map) :
  keyed history_keys entries → keyed history_keys (foldl add_history entries history).
Proof.
  revert entries. induction history as [|h history IH]; intros entries Hk; simpl; [done|].
  apply IH. by apply add_history_keyed.
Qed.

(** Every entry of a merge has its keys among ['comment'], ['attachment'],
    ['history'], in that order. *)
Lemma merge_keyed (bug : Bug) (merged : entry_map) :
  merge bug = Resolved merged → keyed history_keys merged.
Proof.
  unfold merge. destruct (bug_attachments bug) as [attachments|]; [|done]. simpl.
  destruct (for_of _ _ _) as [entries|] eqn:Hatt; [|done]. simpl.
  intros [= <-]. apply foldl_add_history_keyed.
  apply (keyed_weaken attachment_keys); [apply attachment_keys_history_keys|].
  eapply add_attachments_keyed; [|exact Hatt].
  apply (keyed_weaken comment_keys); [apply comment_keys_attachment_keys|].
  apply comment_entries_keyed.
Qed.

(** The timestamps of a merge are distinct. *)
Lemma add_attachments_NoDup (attachments : list Attachment) (entries entries' : entry_map) :
  NoDup (keys entries) →
  for_of add_attachment attachments entries = Resolved entries' →
  NoDup (keys entries').
Proof.
  revert entries. induction attachments as [|a attachments IH]; intros entries Hk; simpl.
  - by intros [= <-].
  - destruct (add_attachment entries a) as [entries1|] eqn:Hadd; [|done].
    simpl. apply IH. unfold add_attachment in Hadd.
    destruct (get (get_time (att_creation_time a)) entries) as [data|]; [|done].
    injection Hadd as <-. by apply NoDup_keys_set.
Qed.

Lemma foldl_add_history_NoDup (history : list History) (entries : entry_map) :
  NoDup (keys entries) → NoDup (keys (foldl add_history entries history)).
Proof.
  revert entries. induction history as [|h history IH]; intros entries Hk; simpl; [done|].
  apply IH. unfold add_history.
  destruct (get (get_time (history_when h)) entries); by apply NoDup_keys_set.
Qed.

Lemma merge_NoDup (bug : Bug) (merged : entry_map) :
  merge bug = Resolved merged → NoDup (keys merged).
Proof.
  unfold merge. destruct (bug_attachments bug) as [attachments|]; [|done]. simpl.
  destruct (for_of _ _ _) as [entries|] eqn:Hatt; [|done]. simpl.
  intros [= <-]. apply foldl_add_history_NoDup.
  eapply add_attachments_NoDup; [|exact Hatt].
  apply NoDup_keys_from_entries.
Qed.

(** Sorting permutes the merge, and the [Map] made of the sorted array is
    that array. *)
Lemma sorted_map (e : engine) (merged : entry_map) :
  NoDup (keys merged) →
  from_entries (sort e by_time merged) = sort e by_time merged.
Proof.
  intros Hnd. apply from_entries_distinct.
  unfold keys. by rewrite (sort_perm by_time e merged).
Qed.

(** *** The marks *)

(** The entry as the first loop over [this.entries] leaves it. *)
Definition marked (delayed : bool) (last_visit : option date_string)
    (entry : Z * entry_data) : Z * entry_data :=
  (mark_entry delayed last_visit {| read_comments_num := 0; last_comment_time := None |} entry).2.

(** The comments the loop counts as read. *)
Definition read_comment (delayed : bool) (last_visit : option date_string)
    (entry : Z * entry_data) : Prop :=
  is_read delayed last_visit entry.1 = true ∧ has "comment" entry.2 = true.

#[local] Instance read_comment_dec delayed last_visit entry :
  Decision (read_comment delayed last_visit entry).
Proof. unfold read_comment. apply _. Defined.

(** The time of the last comment, in the order of the timeline, that counts
    as read. *)
Definition last_read_comment (delayed : bool) (last_visit : option date_string)
    (entries : entry_map) : option Z :=
  fst <$> last (filter (read_comment delayed last_visit) entries).

Lemma marked_time (delayed : bool) (last_visit : option date_string) (entry : Z * entry_data) :
  (marked delayed last_visit entry).1 = entry.1
  ∧ get "time" (marked delayed last_visit entry).2 = Some (VTime entry.1).
Proof.
  unfold marked, mark_entry. destruct (is_read _ _ _); simpl.
  - split; [done | apply get_set_eq].
  - split; [done|]. rewrite get_set_ne by done. apply get_set_eq.
Qed.

Lemma marked_comment (delayed : bool) (last_visit : option date_string) (entry : Z * entry_data) :
  has "comment" (marked delayed last_visit entry).2 = has "comment" entry.2.
Proof.
  unfold marked, mark_entry, has. destruct (is_read _ _ _); simpl.
  - by rewrite get_set_ne.
  - by rewrite !get_set_ne.
Qed.

Lemma marked_rendering (delayed : bool) (last_visit : option date_string) (entry : Z * entry_data) :
  get "rendering" entry.2 = None →
  get "rendering" (marked delayed last_visit entry).2
  = if is_read delayed last_visit entry.1 then None else Some (VBool true).
Proof.
  intros Hnone. unfold marked, mark_entry. destruct (is_read _ _ _); simpl.
  - by rewrite get_set_ne.
  - apply get_set_eq.
Qed.

Lemma mark_entries_eq (delayed : bool) (last_visit : option date_string)
    (m : marking) (entries : entry_map) :
  (mark_entries delayed last_visit m entries).2 = marked delayed last_visit <$> entries
  ∧ last_comment_time (mark_entries delayed last_visit m entries).1
    = match last_read_comment delayed last_visit entries with
      | Some t => Some t
      | None => last_comment_time m
      end.
Proof.
  revert m. induction entries as [|entry entries IH]; intros m; [done|].
  cbn [mark_entries].
  destruct (mark_entry delayed last_visit m entry) as [m1 entry'] eqn:Hentry.
  destruct (IH m1) as [IH1 IH2].
  destruct (mark_entries delayed last_visit m1 entries) as [m2 rest]. cbn in *.
  split.
  - rewrite IH1. f_equal. unfold marked. unfold mark_entry in *.
    destruct (is_read _ _ _); by injection Hentry as _ <-.
  - rewrite IH2. unfold last_read_comment. rewrite filter_cons.
    assert (Hm1 : last_comment_time m1
                  = if decide (read_comment delayed last_visit entry)
                    then Some entry.1 else last_comment_time m).
    { case_decide as Hread; unfold read_comment, has in Hread;
        unfold mark_entry, has in Hentry; rewrite get_set_ne in Hentry by done;
        destruct (is_read delayed last_visit entry.1), (get "comment" entry.2);
        injection Hentry as <- _; cbn; intuition congruence. }
    rewrite Hm1. case_decide as Hread.
    + rewrite last_cons. by destruct (last (filter _ entries)).
    + done.
Qed.

Lemma read_comment_marked (delayed : bool) (last_visit : option date_string)
    (entry : Z * entry_data) :
  read_comment delayed last_visit (marked delayed last_visit entry)
  ↔ read_comment delayed last_visit entry.
Proof.
  unfold read_comment. rewrite marked_comment.
  by rewrite (proj1 (marked_time delayed last_visit entry)).
Qed.

Lemma last_read_comment_marked (delayed : bool) (last_visit : option date_string)
    (entries : entry_map) :
  last_read_comment delayed last_visit (marked delayed last_visit <$> entries)
  = last_read_comment delayed last_visit entries.
Proof.
  unfold last_read_comment. induction entries as [|entry entries IH]; [done|].
  rewrite fmap_cons, !filter_cons.
  pose proof (read_comment_marked delayed last_visit entry) as Hiff.
  do 2 case_decide; try tauto.
  rewrite !last_cons.
  destruct (last (filter _ (marked delayed last_visit <$> entries))),
           (last (filter _ entries)); simpl in *; try done.
  by rewrite (proj1 (marked_time delayed last_visit entry)).
Qed.

Lemma mark_entries_count (delayed : bool) (last_visit : option date_string)
    (m : marking) (entries : entry_map) :
  read_comments_num (mark_entries delayed last_visit m entries).1
  = (read_comments_num m + length (filter (read_comment delayed last_visit) entries))%nat.
Proof.
  revert m. induction entries as [|entry entries IH]; intros m.
  - cbn. lia.
  - cbn [mark_entries].
    destruct (mark_entry delayed last_visit m entry) as [m1 entry'] eqn:Hentry.
    specialize (IH m1).
    destruct (mark_entries delayed last_visit m1 entries) as [m2 rest].
    cbn [fst snd] in *. rewrite IH, filter_cons.
    assert (Hm1 : read_comments_num m1
                  = if decide (read_comment delayed last_visit entry)
                    then S (read_comments_num m) else read_comments_num m).
    { case_decide as Hread; unfold read_comment, has in Hread;
        unfold mark_entry, has in Hentry; rewrite get_set_ne in Hentry by done;
        destruct (is_read delayed last_visit entry.1), (get "comment" entry.2);
        injection Hentry as <- _; cbn; intuition congruence. }
    rewrite Hm1. case_decide; cbn; lia.
Qed.

Lemma filter_read_comment_marked (delayed : bool) (last_visit : option date_string)
    (entries : entry_map) :
  length (filter (read_comment delayed last_visit) (marked delayed last_visit <$> entries))
  = length (filter (read_comment delayed last_visit) entries).
Proof.
  induction entries as [|entry entries IH]; [done|].
  rewrite fmap_cons, !filter_cons.
  pose proof (read_comment_marked delayed last_visit entry) as Hiff.
  do 2 case_decide; try tauto; cbn; by rewrite IH.
Qed.

(** *** The constructor, taken apart *)

Lemma constructor_resolved (e : engine) (bug : Bug) (delayed : bool) (v : view) :
  constructor e bug delayed = Resolved v →
  ∃ merged : entry_map,
    merge bug = Resolved merged
    ∧ entries v = marked delayed (bug_last_visit bug) <$> sort e by_time merged
    ∧ ∃ m : marking,
        last_comment_time m = last_read_comment delayed (bug_last_visit bug) (entries v)
        ∧ data_arr v = (filter (λ entry, rendered_at_once m entry = true) (entries v)).*2.
Proof.
  unfold constructor. destruct (merge bug) as [merged|] eqn:Hmerge; [|done]. simpl.
  rewrite (sorted_map e merged (merge_NoDup bug merged Hmerge)).
  pose proof (mark_entries_eq delayed (bug_last_visit bug)
                {| read_comments_num := 0; last_comment_time := None |}
                (sort e by_time merged)) as [Hmarked Hlast].
  destruct (mark_entries _ _ _ _) as [m es]. simpl in *.
  intros [= <-]. simpl. exists merged. split; [done|]. split; [done|].
  exists m. split; [|done].
  rewrite Hlast, Hmarked, last_read_comment_marked.
  by destruct (last_read_comment _ _ _).
Qed.

(** The expander, as the constructor makes it. *)
Lemma constructor_expander (e : engine) (bug : Bug) (delayed : bool) (v : view) :
  constructor e bug delayed = Resolved v →
  expander v
  = let n := length (filter (read_comment delayed (bug_last_visit bug)) (entries v)) in
    if bool_decide (1 < n)%nat then Some (n - 1)%nat else None.
Proof.
  unfold constructor. destruct (merge bug) as [merged|] eqn:Hmerge; [|done]. simpl.
  pose proof (mark_entries_eq delayed (bug_last_visit bug)
                {| read_comments_num := 0; last_comment_time := None |}
                (from_entries (sort e by_time merged))) as [Hmarked _].
  pose proof (mark_entries_count delayed (bug_last_visit bug)
                {| read_comments_num := 0; last_comment_time := None |}
                (from_entries (sort e by_time merged))) as Hcount.
  destruct (mark_entries _ _ _ _) as [m es]. simpl in *.
  intros [= <-]. simpl. by rewrite Hmarked, filter_read_comment_marked, Hcount.
Qed.

(** An entry of the view comes from an entry of the merge, whose keys are
    among ['comment'], ['attachment'] and ['history']. *)
Lemma entries_origin (e : engine) (bug : Bug) (delayed : bool) (v : view)
    (entry : Z * entry_data) :
  constructor e bug delayed = Resolved v →
  entry ∈ entries v →
  ∃ entry0, entry = marked delayed (bug_last_visit bug) entry0
            ∧ keys entry0.2 ∈ history_keys.
Proof.
  intros (merged & Hmerge & -> & _)%constructor_resolved Hin.
  apply list_elem_of_fmap in Hin as (entry0 & -> & Hin).
  exists entry0. split; [done|].
  apply elem_of_sort in Hin.
  pose proof (merge_keyed bug merged Hmerge) as Hk.
  unfold keyed in Hk. rewrite Forall_forall in Hk. by apply Hk.
Qed.

Lemma history_keys_no_rendering (data : entry_data) :
  keys data ∈ history_keys → get "rendering" data = None.
Proof.
  intros Hk. apply get_None. unfold history_keys in Hk. rewrite !elem_of_cons in Hk.
  destruct Hk as [-> | [-> | [-> | [-> | [-> | Hk]]]]];
    [intros Hin; repeat (apply elem_of_cons in Hin as [Hin|Hin]; [discriminate Hin|]);
     by apply elem_of_nil in Hin..
    | by apply elem_of_nil in Hk].
Qed.

(** *** Sample bugs *)

Definition comment_at (t : Z) : Comment :=
  {| comment_id := t; comment_creation_time := t; comment_text := "" |}.

Definition history_at (t : Z) : History :=
  {| history_when := t; history_who := "dev@example.org" |}.

Definition attachment_at (t : Z) : Attachment :=
  {| att_id := Some 7; att_hash := None; att_bug_id := 42; att_creation_time := t;
     att_is_patch := false; att_content_type := "image/png"; att_data := None |}.

(** One attachment, created at 5, and no comment. *)
Definition bug_lone_attachment : Bug :=
  {| bug_id := 42; bug_comments := []; bug_attachments := Some [attachment_at 5];
     bug_history := []; bug_last_visit := None |}.

(** Comments at 1 and 3, and a change at 2 that came without a comment. *)
Definition bug_silent_change : Bug :=
  {| bug_id := 42; bug_comments := [comment_at 1; comment_at 3];
     bug_attachments := Some []; bug_history := [history_at 2];
     bug_last_visit := None |}.

(** One comment at 1, and a last visit at 5. *)
Definition bug_read : Bug :=
  {| bug_id := 42; bug_comments := [comment_at 1]; bug_attachments := Some [];
     bug_history := []; bug_last_visit := Some 5 |}.

(** Comments at 1, 2 and 6, a change at 2, and a last visit at 5. *)
Definition bug_revisited : Bug :=
  {| bug_id := 42; bug_comments := [comment_at 1; comment_at 2; comment_at 6];
     bug_attachments := Some []; bug_history := [history_at 2];
     bug_last_visit := Some 5 |}.

(** *** The merge *)

Lemma add_attachments_resolved (attachments : list Attachment) (entries entries' : entry_map) :
  for_of add_attachment attachments entries = Resolved entries' →
  keys entries' = keys entries
  ∧ ∀ a, a ∈ attachments → get_time (att_creation_time a) ∈ keys entries.
Proof.
  revert entries. induction attachments as [|a attachments IH]; intros entries; simpl.
  - intros [= <-]. split; [done|]. intros a Ha. by apply elem_of_nil in Ha.
  - destruct (add_attachment entries a) as [entries1|] eqn:Hadd; [|done]. simpl.
    intros [Hkeys Hall]%IH. unfold add_attachment in Hadd.
    destruct (get (get_time (att_creation_time a)) entries) as [data|] eqn:Hget; [|done].
    injection Hadd as <-.
    assert (Hin : get_time (att_creation_time a) ∈ keys entries).
    { apply has_true. unfold has. by rewrite Hget. }
    rewrite keys_set_old in Hkeys, Hall by done.
    split; [done|]. intros a' [->|Ha']%elem_of_cons; auto.
Qed.

(** The merge goes through only if every attachment was created at the very
    instant of some comment. *)
Lemma merge_resolved_attachments (bug : Bug) (merged : entry_map) :
  merge bug = Resolved merged →
  ∃ attachments, bug_attachments bug = Some attachments
    ∧ ∀ a, a ∈ attachments →
        ∃ c, c ∈ bug_comments bug
             ∧ get_time (comment_creation_time c) = get_time (att_creation_time a).
Proof.
  unfold merge. destruct (bug_attachments bug) as [attachments|]; [|done]. simpl.
  destruct (for_of _ _ _) as [entries|] eqn:Hatt; [|done]. intros _.
  exists attachments. split; [done|]. intros a Ha.
  apply add_attachments_resolved in Hatt as [_ Hall].
  specialize (Hall a Ha). unfold keys in Hall.
  apply list_elem_of_fmap in Hall as ([t data] & Ht & Hin). simpl in Ht.
  apply elem_of_from_entries, list_elem_of_fmap in Hin as (c & [= -> _] & Hc).
  by exists c.
Qed.

(** [entries.get(time).get(key)] *)
Definition lookup2 (time : Z) (key : string) (entries : entry_map) : option value :=
  data ← get time entries; get key data.

Lemma lookup2_set (time t : Z) (key : string) (data : entry_data) (entries : entry_map) :
  lookup2 t key (set time data entries)
  = if decide (time = t) then get key data else lookup2 t key entries.
Proof.
  unfold lookup2. case_decide as Ht.
  - subst t. by rewrite get_set_eq.
  - by rewrite get_set_ne.
Qed.

Lemma get_set_cases (k k' : string) (v : value) (data : entry_data) :
  get k' (set k v data) = if decide (k = k') then Some v else get k' data.
Proof.
  case_decide as Hk; [subst k'; apply get_set_eq | by apply get_set_ne].
Qed.

(** Settles a goal that is a case analysis on decided equalities. *)
Ltac decided := repeat case_decide; try done; intuition congruence.

Lemma lookup2_add_attachment (entries entries' : entry_map) (a : Attachment)
    (t : Z) (k : string) :
  add_attachment entries a = Resolved entries' →
  lookup2 t k entries'
  = if decide (get_time (att_creation_time a) = t ∧ "attachment" = k)
    then Some (VAttachment a) else lookup2 t k entries.
Proof.
  unfold add_attachment.
  destruct (get (get_time (att_creation_time a)) entries) as [data|] eqn:Hget; [|done].
  intros [= <-]. rewrite lookup2_set, get_set_cases.
  destruct (decide (get_time (att_creation_time a) = t)) as [<-|Ht].
  - unfold lookup2. rewrite Hget. simpl. decided.
  - decided.
Qed.

Lemma lookup2_add_history (entries : entry_map) (h : History) (t : Z) (k : string) :
  lookup2 t k (add_history entries h)
  = if decide (get_time (history_when h) = t ∧ "history" = k)
    then Some (VHistory h) else lookup2 t k entries.
Proof.
  unfold add_history.
  destruct (get (get_time (history_when h)) entries) as [data|] eqn:Hget;
    rewrite lookup2_set.
  - rewrite get_set_cases.
    destruct (decide (get_time (history_when h) = t)) as [<-|Ht].
    + unfold lookup2. rewrite Hget. simpl. decided.
    + decided.
  - destruct (decide (get_time (history_when h) = t)) as [<-|Ht].
    + unfold lookup2. rewrite Hget. simpl. decided.
    + decided.
Qed.

Lemma lookup2_add_attachments (attachments : list Attachment) (entries entries' : entry_map) :
  for_of add_attachment attachments entries = Resolved entries' →
  (∀ t k, k ≠ "attachment" → lookup2 t k entries' = lookup2 t k entries)
  ∧ (NoDup (get_time ∘ att_creation_time <$> attachments) →
     ∀ a, a ∈ attachments →
       lookup2 (get_time (att_creation_time a)) "attachment" entries' = Some (VAttachment a)).
Proof.
  revert entries. induction attachments as [|a0 attachments IH]; intros entries; simpl.
  - intros [= <-]. split; [done|]. intros _ a Ha. by apply elem_of_nil in Ha.
  - destruct (add_attachment entries a0) as [entries1|] eqn:Hadd; [|done]. simpl.
    intros Hrest. destruct (IH _ Hrest) as [IH1 IH2]. split.
    + intros t k Hk. rewrite IH1 by done.
      rewrite (lookup2_add_attachment _ _ _ t k Hadd).
      by rewrite decide_False by intuition congruence.
    + intros [Hnin Hnd]%NoDup_cons a [->|Ha]%elem_of_cons; [|by apply IH2].
      assert (Hkeep : ∀ es es', for_of add_attachment attachments es = Resolved es' →
                lookup2 (get_time (att_creation_time a0)) "attachment" es'
                = lookup2 (get_time (att_creation_time a0)) "attachment" es).
      { clear -Hnin. induction attachments as [|a1 attachments IH]; intros es es'; simpl.
        - by intros [= <-].
        - apply not_elem_of_cons in Hnin as [Hne Hnin].
          destruct (add_attachment es a1) as [es1|] eqn:Hadd; [|done]. simpl.
          intros Hrest. rewrite (IH Hnin _ _ Hrest).
          rewrite (lookup2_add_attachment _ _ _ _ _ Hadd).
          rewrite decide_False; [done|]. simpl in Hne. intuition congruence. }
      rewrite (Hkeep _ _ Hrest), (lookup2_add_attachment _ _ _ _ _ Hadd).
      by rewrite decide_True.
Qed.

Lemma lookup2_foldl_add_history (history : list History) (entries : entry_map) :
  (∀ t k, k ≠ "history" →
     lookup2 t k (foldl add_history entries history) = lookup2 t k entries)
  ∧ (NoDup (get_time ∘ history_when <$> history) →
     ∀ h, h ∈ history →
       lookup2 (get_time (history_when h)) "history" (foldl add_history entries history)
       = Some (VHistory h)).
Proof.
  revert entries. induction history as [|h0 history IH]; intros entries; simpl.
  - split; [done|]. intros _ h Hh. by apply elem_of_nil in Hh.
  - destruct (IH (add_history entries h0)) as [IH1 IH2]. split.
    + intros t k Hk. rewrite IH1, lookup2_add_history by done.
      by rewrite decide_False by intuition congruence.
    + intros [Hnin Hnd]%NoDup_cons h [->|Hh]%elem_of_cons; [|by apply IH2].
      assert (Hkeep : ∀ es,
                lookup2 (get_time (history_when h0)) "history" (foldl add_history es history)
                = lookup2 (get_time (history_when h0)) "history" es).
      { clear -Hnin. induction history as [|h1 history IH]; intros es; simpl; [done|].
        apply not_elem_of_cons in Hnin as [Hne Hnin].
        rewrite (IH Hnin), lookup2_add_history.
        rewrite decide_False; [done|]. simpl in Hne. intuition congruence. }
      rewrite Hkeep, lookup2_add_history. by rewrite decide_True.
Qed.

Lemma lookup2_comment_entries (comments : list Comment) (c : Comment) :
  NoDup (get_time ∘ comment_creation_time <$> comments) →
  c ∈ comments →
  lookup2 (get_time (comment_creation_time c)) "comment" (comment_entries comments)
  = Some (VComment c).
Proof.
  intros Hnd Hc. unfold comment_entries, lookup2.
  set (l := _ <$> comments).
  assert (Hkeys : keys l = get_time ∘ comment_creation_time <$> comments).
  { unfold keys, l. rewrite <- list_fmap_compose. by apply list_fmap_ext. }
  rewrite from_entries_distinct by (by rewrite Hkeys).
  rewrite (elem_of_get _ (from_entries [("comment", VComment c)])).
  - done.
  - by rewrite Hkeys.
  - unfold l. apply list_elem_of_fmap. by exists c.
Qed.

(** What the merge does keep: when it goes through and no two comments, no
    two attachments and no two changes share a timestamp, every comment,
    attachment and change is in the record of its timestamp. *)
Lemma merge_complete (bug : Bug) (attachments : list Attachment) (merged : entry_map) :
  merge bug = Resolved merged →
  bug_attachments bug = Some attachments →
  NoDup (get_time ∘ comment_creation_time <$> bug_comments bug) →
  NoDup (get_time ∘ att_creation_time <$> attachments) →
  NoDup (get_time ∘ history_when <$> bug_history bug) →
  (∀ c, c ∈ bug_comments bug →
     lookup2 (get_time (comment_creation_time c)) "comment" merged = Some (VComment c))
  ∧ (∀ a, a ∈ attachments →
     lookup2 (get_time (att_creation_time a)) "attachment" merged = Some (VAttachment a))
  ∧ (∀ h, h ∈ bug_history bug →
     lookup2 (get_time (history_when h)) "history" merged = Some (VHistory h)).
Proof.
  unfold merge. intros Hmerge Hbug Hc Ha Hh. rewrite Hbug in Hmerge. simpl in Hmerge.
  destruct (for_of _ _ _) as [entries|] eqn:Hatt; [|done].
  injection Hmerge as <-.
  destruct (lookup2_add_attachments _ _ _ Hatt) as [Ha1 Ha2].
  destruct (lookup2_foldl_add_history (bug_history bug) entries) as [Hh1 Hh2].
  split; [|split].
  - intros c Hin. rewrite Hh1, Ha1 by done. by apply lookup2_comment_entries.
  - intros a Hin. rewrite Hh1 by done. by apply Ha2.
  - by apply Hh2.
Qed.

(** Two comments of the same instant: the record keeps the later one only. *)
Lemma merge_same_instant :
  ∃ merged,
    merge {| bug_id := 42;
             bug_comments := [{| comment_id := 1; comment_creation_time := 5;
                                 comment_text := "first" |};
                              {| comment_id := 2; comment_creation_time := 5;
                                 comment_text := "second" |}];
             bug_attachments := Some []; bug_history := []; bug_last_visit := None |}
    = Resolved merged
    ∧ merged = [(5, [("comment", VComment {| comment_id := 2; comment_creation_time := 5;
                                             comment_text := "second" |})])].
Proof. eexists. split; reflexivity. Qed.

(** C2 (the code departs from the claim): for a bug with one attachment and no
    comment at its creation time, the constructor throws a [TypeError] at
    [entries.get(...).set(...)], whatever the engine: no timeline is
    produced. *)
Theorem constructor_attachment_without_comment (e : engine) (delayed : bool) :
  constructor e bug_lone_attachment delayed = Rejected TypeError.
Proof. by destruct e, delayed. Qed.

(** *** The order of the timeline *)

(** On an engine that looks for a negative result, the timeline keeps the
    order in which the merge inserted its entries. *)
Lemma constructor_V8_insertion_order (bug : Bug) (delayed : bool) (v : view) :
  constructor V8 bug delayed = Resolved v →
  ∃ merged, merge bug = Resolved merged ∧ keys (entries v) = keys merged.
Proof.
  intros (merged & Hmerge & Hentries & _)%constructor_resolved.
  exists merged. split; [done|].
  rewrite Hentries, (sort_V8_never_negative by_time merged by_time_never_negative).
  unfold keys. rewrite <- list_fmap_compose. apply list_fmap_ext.
  intros i entry _. apply marked_time.
Qed.

(** X18: on an engine that looks for a positive result, the timeline is in
    strictly ascending order of time. *)
Lemma constructor_SpiderMonkey_ascending (bug : Bug) (delayed : bool) (v : view) :
  constructor SpiderMonkey bug delayed = Resolved v →
  StronglySorted Z.lt (keys (entries v)).
Proof.
  intros (merged & Hmerge & Hentries & _)%constructor_resolved.
  assert (Hkeys : keys (entries v) = keys (sort SpiderMonkey by_time merged)).
  { rewrite Hentries. unfold keys. rewrite <- list_fmap_compose. apply list_fmap_ext.
    intros i entry _. apply marked_time. }
  rewrite Hkeys.
  pose proof (sort_SpiderMonkey_sorted by_time fst by_time_positive merged) as Hsorted.
  assert (Hnd : NoDup (keys (sort SpiderMonkey by_time merged))).
  { unfold keys. rewrite (sort_perm by_time SpiderMonkey merged).
    by apply (merge_NoDup bug). }
  revert Hsorted Hnd. generalize (sort SpiderMonkey by_time merged). intros l.
  induction 1 as [|x l Hl IH Hx]; simpl; [constructor|].
  intros [Hnin Hnd]%NoDup_cons. constructor; [by apply IH|].
  rewrite Forall_forall in Hx. apply Forall_forall. intros t Ht.
  apply list_elem_of_fmap in Ht as (y & -> & Hy).
  specialize (Hx y Hy). simpl in Hx.
  assert (x.1 ≠ y.1); [|lia].
  intros Heq. apply Hnin. rewrite Heq. apply list_elem_of_fmap. by exists y.
Qed.

(** X19: within an entry, whatever the engine, the keys come in the order
    ['comment'], ['attachment'], ['history'], then ['time'] and
    ['rendering']. *)
Lemma entry_keys_order (e : engine) (bug : Bug) (delayed : bool) (v : view)
    (time : Z) (data : entry_data) :
  constructor e bug delayed = Resolved v →
  (time, data) ∈ entries v →
  keys data `sublist_of` ["comment"; "attachment"; "history"; "time"; "rendering"].
Proof.
  intros Hv Hin.
  destruct (entries_origin e bug delayed v _ Hv Hin) as ([t data0] & Heq & Hk).
  simpl in Hk. unfold marked, mark_entry in Heq. simpl in Heq.
  assert (Hdata : keys data = keys data0 ++ ["time"]
                  ∨ keys data = keys data0 ++ ["time"; "rendering"]).
  { unfold history_keys in Hk. rewrite !elem_of_cons in Hk.
    destruct (is_read _ _ _); injection Heq as _ ->; rewrite !keys_set_cases;
      destruct Hk as [-> | [-> | [-> | [-> | [-> | Hk]]]]];
      try (by apply elem_of_nil in Hk); vm_compute; auto. }
  unfold history_keys in Hk. rewrite !elem_of_cons in Hk.
  destruct Hdata as [-> | ->];
    destruct Hk as [-> | [-> | [-> | [-> | [-> | Hk]]]]];
    try (by apply elem_of_nil in Hk); simpl;
    repeat first [apply sublist_nil | apply sublist_skip | apply sublist_cons].
Qed.

(** C3 (the code departs from the claim): the comparator [a[0] > b[0]] yields
    a boolean, never a negative number, so an engine that looks for a negative
    result leaves the entries where the merge inserted them. For comments at 1
    and 3 and a change at 2, the timeline is then in the order 1, 3, 2, while
    an engine that looks for a positive result gives 1, 2, 3. *)
Theorem timeline_order_depends_on_engine :
  (∃ v, constructor V8 bug_silent_change false = Resolved v
        ∧ keys (entries v) = [1; 3; 2])
  ∧ (∃ v, constructor SpiderMonkey bug_silent_change false = Resolved v
          ∧ keys (entries v) = [1; 2; 3]).
Proof. split; eexists; split; by vm_compute. Qed.

(** *** What is rendered at once *)

(** Each entry of the view carries its own time under ['time']. *)
Lemma entries_time (e : engine) (bug : Bug) (delayed : bool) (v : view)
    (time : Z) (data : entry_data) :
  constructor e bug delayed = Resolved v →
  (time, data) ∈ entries v →
  get "time" data = Some (VTime time).
Proof.
  intros Hv Hin.
  destruct (entries_origin e bug delayed v _ Hv Hin) as (entry0 & Heq & _).
  pose proof (marked_time delayed (bug_last_visit bug) entry0) as [Ht Hget].
  rewrite <- Heq in Ht, Hget. simpl in *. by rewrite Ht.
Qed.

(** An entry is handed to [generate_entries] by the constructor exactly when
    it passes the test of the second loop. *)
Lemma data_arr_spec (e : engine) (bug : Bug) (delayed : bool) (v : view)
    (time : Z) (data : entry_data) :
  constructor e bug delayed = Resolved v →
  (time, data) ∈ entries v →
  data ∈ data_arr v
  ↔ (has "rendering" data = true
     ∨ ∃ t, last_read_comment delayed (bug_last_visit bug) (entries v) = Some t ∧ t ≤ time).
Proof.
  intros Hv Hin.
  destruct (constructor_resolved e bug delayed v Hv) as (_ & _ & _ & m & Hm & ->).
  assert (Htest : ∀ t, rendered_at_once m (t, data) = true
            ↔ (has "rendering" data = true
               ∨ ∃ t0, last_read_comment delayed (bug_last_visit bug) (entries v) = Some t0
                       ∧ t0 ≤ t)).
  { intros t. unfold rendered_at_once. rewrite orb_true_iff, Hm. simpl.
    destruct (last_read_comment _ _ _) as [t0|].
    - rewrite bool_decide_eq_true. split; (intros [?|H]; [by left | right]).
      + exists t0. split; [done | lia].
      + destruct H as (? & [= <-] & ?). lia.
    - split; (intros [?|H]; [by left|]); [done | by destruct H as (? & ? & _)]. }
  rewrite <- Htest. split.
  - intros ([t d] & -> & [Htrue Hin']%list_elem_of_filter)%list_elem_of_fmap. simpl in *.
    pose proof (entries_time e bug delayed v _ _ Hv Hin) as H1.
    pose proof (entries_time e bug delayed v _ _ Hv Hin') as H2.
    rewrite H1 in H2. by injection H2 as ->.
  - intros Htrue. apply list_elem_of_fmap. exists (time, data). split; [done|].
    by apply list_elem_of_filter.
Qed.

(** C9 (as amended): with a last visit and no delay, an entry at or after the
    last visit carries the ['rendering'] mark and is rendered by the
    constructor; an entry before the last visit carries no mark, and is
    rendered by the constructor exactly when it is not earlier than the last
    comment of the timeline that precedes the last visit, otherwise the
    constructor leaves it unrendered; and the constructor makes an expander
    exactly when two or more entries before the last visit hold a comment,
    announcing one fewer, so that an entry left unrendered may come without
    an expander. *)
Theorem last_visit_marking (e : engine) (bug : Bug) (lv : date_string) (v : view)
    (time : Z) (data : entry_data) :
  bug_last_visit bug = Some lv →
  constructor e bug false = Resolved v →
  (time, data) ∈ entries v →
  (get_time lv ≤ time →
     get "rendering" data = Some (VBool true) ∧ data ∈ data_arr v)
  ∧ (time < get_time lv →
     get "rendering" data = None
     ∧ (data ∈ data_arr v
        ↔ ∃ t, last_read_comment false (Some lv) (entries v) = Some t ∧ t ≤ time))
  ∧ expander v
    = (let n := length (filter (read_comment false (Some lv)) (entries v)) in
       if bool_decide (1 < n)%nat then Some (n - 1)%nat else None).
Proof.
  intros Hlv Hv Hin.
  pose proof (data_arr_spec e bug false v time data Hv Hin) as Harr.
  pose proof (constructor_expander e bug false v Hv) as Hexp.
  destruct (entries_origin e bug false v _ Hv Hin) as (entry0 & Heq & Hk).
  pose proof (marked_rendering false (bug_last_visit bug) entry0
                (history_keys_no_rendering _ Hk)) as Hr.
  pose proof (marked_time false (bug_last_visit bug) entry0) as [Ht _].
  rewrite <- Heq in Hr, Ht. simpl in Hr, Ht. subst time.
  rewrite Hlv in *. unfold is_read in Hr. simpl in Hr.
  split; [|split; [|exact Hexp]]; intros Htime.
  - rewrite bool_decide_eq_false_2 in Hr by lia. split; [done|].
    apply Harr. left. unfold has. by rewrite Hr.
  - rewrite bool_decide_eq_true_2 in Hr by lia. split; [done|].
    rewrite Harr. unfold has. rewrite Hr. split; [intros [?|?]; done | by right].
Qed.

(** A change at 1 that came without a comment, a comment at 3, and a last
    visit at 5. *)
Definition bug_old_change : Bug :=
  {| bug_id := 42; bug_comments := [comment_at 3]; bug_attachments := Some [];
     bug_history := [history_at 1]; bug_last_visit := Some 5 |}.

Lemma last_visit_marking_witness :
  let old := [("comment", VComment (comment_at 1)); ("time", VTime 1)] in
  let new := [("comment", VComment (comment_at 6)); ("time", VTime 6);
              ("rendering", VBool true)] in
  let change := [("history", VHistory (history_at 1)); ("time", VTime 1)] in
  (∃ v, constructor SpiderMonkey bug_revisited false = Resolved v
        ∧ (get "rendering" new = Some (VBool true) ∧ new ∈ data_arr v)
        ∧ get "rendering" old = None
        ∧ (old ∈ data_arr v
           ↔ ∃ t, last_read_comment false (Some 5) (entries v) = Some t ∧ t ≤ 1)
        ∧ expander v = Some 1%nat)
  ∧ (∃ v, constructor SpiderMonkey bug_old_change false = Resolved v
          ∧ last_read_comment false (Some 5) (entries v) = Some 3
          ∧ get "rendering" change = None
          ∧ (change ∈ data_arr v
             ↔ ∃ t, last_read_comment false (Some 5) (entries v) = Some t ∧ t ≤ 1)
          ∧ expander v = None).
Proof.
  intros old new change. split.
  - eexists. split; [reflexivity|]. split; [|split; [|split]].
    + refine (proj1 (last_visit_marking SpiderMonkey bug_revisited 5 _ 6 new
                       eq_refl eq_refl _) _).
      * do 2 apply list_elem_of_further. apply list_elem_of_here.
      * unfold get_time. lia.
    + refine (proj1 (proj1 (proj2 (last_visit_marking SpiderMonkey bug_revisited 5 _ 1 old
                                     eq_refl eq_refl _)) _)).
      * apply list_elem_of_here.
      * unfold get_time. lia.
    + refine (proj2 (proj1 (proj2 (last_visit_marking SpiderMonkey bug_revisited 5 _ 1 old
                                     eq_refl eq_refl _)) _)).
      * apply list_elem_of_here.
      * unfold get_time. lia.
    + refine (proj2 (proj2 (last_visit_marking SpiderMonkey bug_revisited 5 _ 1 old
                              eq_refl eq_refl _))).
      apply list_elem_of_here.
  - eexists. split; [reflexivity|]. split; [reflexivity|]. split; [|split].
    + refine (proj1 (proj1 (proj2 (last_visit_marking SpiderMonkey bug_old_change 5 _ 1
                                     change eq_refl eq_refl _)) _)).
      * apply list_elem_of_here.
      * unfold get_time. lia.
    + refine (proj2 (proj1 (proj2 (last_visit_marking SpiderMonkey bug_old_change 5 _ 1
                                     change eq_refl eq_refl _)) _)).
      * apply list_elem_of_here.
      * unfold get_time. lia.
    + refine (proj2 (proj2 (last_visit_marking SpiderMonkey bug_old_change 5 _ 1
                              change eq_refl eq_refl _))).
      apply list_elem_of_here.
Defined.

(** C9 (the claim as it stands fails): it is not so that every entry before
    the last visit waits to be expanded. For a bug whose only comment, at 1,
    precedes the last visit at 5, that comment is handed to
    [generate_entries] by the constructor, and no expander is made. *)
Lemma read_comment_rendered_at_once :
  ¬ (∀ (e : engine) (bug : Bug) (lv : date_string) (v : view) (time : Z) (data : entry_data),
       bug_last_visit bug = Some lv →
       constructor e bug false = Resolved v →
       (time, data) ∈ entries v →
       time < get_time lv →
       data ∉ data_arr v).
Proof.
  intros Hclaim.
  set (data := [("comment", VComment (comment_at 1)); ("time", VTime 1)]).
  set (v := {| entries := [(1, data)]; data_arr := [data]; expander := None |}).
  apply (Hclaim SpiderMonkey bug_read 5 v 1 data); try reflexivity.
  - apply list_elem_of_here.
  - apply list_elem_of_here.
Qed.

End TimelineFacts.

(** ** More on the attachment model *)

Module AttachmentExtras.
Import AttachmentModel AttachmentFacts.

(** The request [fetch] sends, and the one [get_data] sends. *)
Definition full_request (s : state) : request :=
  {| req_attachment := id (this s); req_include_fields := None |}.
Definition data_request (s : state) : request :=
  {| req_attachment := id (this s); req_include_fields := Some "data" |}.

(** A tracker that cannot be reached. *)
Definition host_down : host := λ _, None.

(** *** fetch *)

(** X1: when the response holds a record under [this.id], [fetch] resolves in
    the instance with that record as its data; one request without
    [include_fields] has been sent, and the collections and the store are as
    before. *)
Theorem fetch_replaces_data (h : host) (s : state) (m : gmap ident Attachment)
    (a : Attachment) :
  h (full_request s) = Some {| res_attachments := Some m |} →
  m !! id (this s) = Some a →
  (fetch h s).1 = Resolved {| id := id (this s); data := Some a |}
  ∧ this (fetch h s).2 = {| id := id (this s); data := Some a |}
  ∧ requests (fetch h s).2 = requests s ++ [full_request s]
  ∧ bugs (fetch h s).2 = bugs s
  ∧ attachments (fetch h s).2 = attachments s
  ∧ bug_store (fetch h s).2 = bug_store s
  ∧ store_writes (fetch h s).2 = store_writes s.
Proof.
  intros Hh Hm. unfold fetch, full_request in *. run. rewrite Hh. cbn. by rewrite Hm.
Qed.

Lemma fetch_replaces_data_witness :
  let s := state_of (Some att7) ∅ in
  let a := set_att_data (Some "aGk=") att7 in
  (fetch host_payload s).1 = Resolved {| id := inl 7; data := Some a |}
  ∧ this (fetch host_payload s).2 = {| id := inl 7; data := Some a |}
  ∧ requests (fetch host_payload s).2 = [full_request s]
  ∧ bugs (fetch host_payload s).2 = bugs s
  ∧ attachments (fetch host_payload s).2 = attachments s
  ∧ bug_store (fetch host_payload s).2 = bug_store s
  ∧ store_writes (fetch host_payload s).2 = store_writes s.
Proof.
  intros s a.
  apply (fetch_replaces_data host_payload s {[ inl 7 := a ]} a); reflexivity.
Defined.

(** X2: a request that fails makes [fetch] fail with the rejection of the
    request, and a response without [attachments] makes it fail with a
    [TypeError]; in both cases the instance keeps the data it had, and
    nothing but the log of requests has changed. *)
Theorem fetch_rejected_keeps_data (h : host) (s : state) :
  (h (full_request s) = None →
     fetch h s = (Rejected RemoteUnavailable, log_request (full_request s) s))
  ∧ (h (full_request s) = Some {| res_attachments := None |} →
     fetch h s = (Rejected TypeError, log_request (full_request s) s))
  ∧ this (log_request (full_request s) s) = this s.
Proof.
  unfold fetch, full_request. run.
  split; [|split; [|done]]; intros Hh; by rewrite Hh.
Qed.

Lemma fetch_rejected_keeps_data_witness :
  let s := state_of (Some att7) ∅ in
  fetch host_down s = (Rejected RemoteUnavailable, log_request (full_request s) s)
  ∧ this (fetch host_down s).2 = this s.
Proof.
  intros s. split.
  - apply (proj1 (fetch_rejected_keeps_data host_down s)). reflexivity.
  - reflexivity.
Defined.

(** *** get_data *)

Lemma saved_attachments (d : Attachment) (s : state) :
  attachments (saved d s) = attachments s.
Proof.
  unfold saved. destruct (bugs s !! att_bug_id d) as [b|]; [|done].
  destruct (bug_attachments b) as [[|att atts]|]; done.
Qed.

(** X3: when the payload is not at hand and the response carries one,
    [get_data] resolves in the decoding of that payload; the instance's data
    is the record it had with the payload filled in, the collection holds
    that record under [this.id], and one request for the [data] field has
    been sent. *)
Theorem get_data_fetches_payload (tasks : worker) (h : host) (s : state)
    (d a : Attachment) (m : gmap ident Attachment) :
  data (this s) = Some d →
  truthy (att_data d) = false →
  h (data_request s) = Some {| res_attachments := Some m |} →
  m !! id (this s) = Some a →
  truthy (att_data a) = true →
  let d' := set_att_data (att_data a) d in
  let msg := tasks (att_data a) (att_content_type d) in
  (get_data tasks h s).1
    = Resolved {| res_blob := blob msg;
                  res_text := if textual d then Some (binary msg) else None;
                  res_attachment := {| id := id (this s); data := Some d' |} |}
  ∧ this (get_data tasks h s).2 = {| id := id (this s); data := Some d' |}
  ∧ attachments (get_data tasks h s).2 !! id (this s) = Some d'
  ∧ requests (get_data tasks h s).2 = requests s ++ [data_request s].
Proof.
  intros Hd Ht Hh Hm Ha d' msg.
  rewrite (get_data_absent_eq tasks h s d Hd Ht). cbn zeta.
  unfold data_request in Hh. rewrite Hh. cbn. rewrite Hm, Ha. cbn.
  unfold received. cbn.
  split; [done|]. split; [done|]. split; [by rewrite lookup_insert_eq | done].
Qed.

Lemma get_data_fetches_payload_witness :
  let s := state_of (Some att7) ∅ in
  let d' := set_att_data (Some "aGk=") att7 in
  let msg := tasks_stub (Some "aGk=") "image/png" in
  (get_data tasks_stub host_payload s).1
    = Resolved {| res_blob := blob msg; res_text := None;
                  res_attachment := {| id := inl 7; data := Some d' |} |}
  ∧ this (get_data tasks_stub host_payload s).2 = {| id := inl 7; data := Some d' |}
  ∧ attachments (get_data tasks_stub host_payload s).2 !! inl 7 = Some d'
  ∧ requests (get_data tasks_stub host_payload s).2 = [data_request s].
Proof.
  intros s d' msg.
  apply (get_data_fetches_payload tasks_stub host_payload s att7 d' {[ inl 7 := d' ]});
    reflexivity.
Defined.

(** X4: whatever goes wrong in [get_data] (the request fails, the response
    has no [attachments], no record, or no payload), the rejection is the
    "could not be retrieved" error for [this.id]; the payload was not at
    hand, and nothing but the log of requests has changed. *)
Theorem get_data_rejected (tasks : worker) (h : host) (s s' : state)
    (d : Attachment) (e : error) :
  data (this s) = Some d →
  get_data tasks h s = (Rejected e, s') →
  e = AttachmentUnavailable (id (this s))
  ∧ truthy (att_data d) = false
  ∧ s' = log_request (data_request s) s.
Proof.
  intros Hd. destruct (truthy (att_data d)) eqn:Ht.
  - by rewrite (get_data_present_eq tasks h s d Hd Ht), (decode_eq tasks s d Hd).
  - rewrite (get_data_absent_eq tasks h s d Hd Ht). cbn zeta. fold (data_request s).
    destruct (h _) as [res|]; [|by intros [= <- <-]].
    destruct (res_attachments res) as [m|]; [|by intros [= <- <-]].
    destruct (m !! id (this s)) as [a|]; [|by intros [= <- <-]].
    destruct (truthy (att_data a)); [done | by intros [= <- <-]].
Qed.

Lemma get_data_rejected_witness :
  let s := state_of (Some att7) ∅ in
  AttachmentUnavailable (inl 7) = AttachmentUnavailable (id (this s))
  ∧ truthy (att_data att7) = false
  ∧ (get_data tasks_stub host_down s).2 = log_request (data_request s) s.
Proof.
  intros s.
  apply (get_data_rejected tasks_stub host_down s (get_data tasks_stub host_down s).2
           att7 (AttachmentUnavailable (inl 7))); reflexivity.
Defined.

(** X5: once [get_data] has resolved, the payload is at hand: a second call
    resolves in the same result and leaves the state, with its log of
    requests, as the first call left it. *)
Theorem get_data_twice (tasks : worker) (h : host) (s s1 : state)
    (d : Attachment) (r : data_result) :
  data (this s) = Some d →
  get_data tasks h s = (Resolved r, s1) →
  payload_present s1 ∧ get_data tasks h s1 = (Resolved r, s1).
Proof.
  intros Hd. destruct (truthy (att_data d)) eqn:Ht.
  - rewrite (get_data_present_eq tasks h s d Hd Ht), (decode_eq tasks s d Hd).
    intros [= <- <-]. split; [by exists d|].
    by rewrite (get_data_present_eq tasks h s d Hd Ht), (decode_eq tasks s d Hd).
  - rewrite (get_data_absent_eq tasks h s d Hd Ht). cbn zeta.
    destruct (h _) as [res|]; [|done].
    destruct (res_attachments res) as [m|]; [|done].
    destruct (m !! id (this s)) as [a|]; [|done].
    destruct (truthy (att_data a)) eqn:Ha; [|done].
    intros [= <- <-].
    set (d' := set_att_data (att_data a) d).
    set (s1 := received d (att_data a) _ s).
    assert (Hthis : this s1 = {| id := id (this s); data := Some d' |}) by done.
    assert (Hd1 : data (this s1) = Some d') by (by rewrite Hthis).
    split; [by exists d'|].
    rewrite (get_data_present_eq tasks h s1 d' Hd1 Ha), (decode_eq tasks s1 d' Hd1).
    by rewrite Hthis.
Qed.

Lemma get_data_twice_witness :
  let s := state_of (Some att7) ∅ in
  let d' := set_att_data (Some "aGk=") att7 in
  let r := decoded tasks_stub d' {| id := inl 7; data := Some d' |} in
  let s1 := (get_data tasks_stub host_payload s).2 in
  payload_present s1 ∧ get_data tasks_stub host_payload s1 = (Resolved r, s1).
Proof.
  intros s d' r s1.
  apply (get_data_twice tasks_stub host_payload s s1 att7 r); reflexivity.
Defined.

(** *** save *)

(** The body of the loop leaves an entry as it is or fills its payload in. *)
Lemma fill_stub_cases (i : ident) (v : option string) (att : Attachment) :
  (fill_stub i v att = att
   ∧ (id_strict_eq (att_id att) i = false ∨ truthy (att_data att) = true))
  ∨ (fill_stub i v att = set_att_data v att
     ∧ id_strict_eq (att_id att) i = true ∧ truthy (att_data att) = false).
Proof.
  unfold fill_stub.
  destruct (id_strict_eq (att_id att) i), (truthy (att_data att)); cbn; auto.
Qed.

Lemma fill_stub_idempotent (i : ident) (v : option string) (att : Attachment) :
  fill_stub i v (fill_stub i v att) = fill_stub i v att.
Proof.
  destruct (fill_stub_cases i v att) as [[Heq _] | (-> & Hid & Hdata)];
    [by rewrite !Heq|].
  unfold fill_stub. cbn. rewrite Hid. by destruct (truthy v).
Qed.

(** What [saved] does to the cached bugs and to the store. *)
Lemma saved_bugs (d : Attachment) (s : state) (b : Bug) (atts : list Attachment) :
  bugs s !! att_bug_id d = Some b →
  bug_attachments b = Some atts →
  atts ≠ [] →
  let b' := set_bug_attachments (Some (fill_stub (id (this s)) (att_data d) <$> atts)) b in
  bugs (saved d s) = <[att_bug_id d := b']> (bugs s)
  ∧ bug_store (saved d s) = <[bug_id b := b']> (bug_store s)
  ∧ store_writes (saved d s) = store_writes s ++ [bug_id b].
Proof.
  intros Hb Hatts Hne. unfold saved. rewrite Hb, Hatts.
  by destruct atts as [|att atts].
Qed.



(** X7: [save] touches the parent bug only: the instance, the collection of
    attachments and the log of requests are as before, every other cached
    bug is as before, and the store is as before except under the parent
    bug's id. *)
Theorem save_frame (s : state) (d : Attachment) :
  data (this s) = Some d →
  this (save s).2 = this s
  ∧ attachments (save s).2 = attachments s
  ∧ requests (save s).2 = requests s
  ∧ (∀ k, k ≠ att_bug_id d → bugs (save s).2 !! k = bugs s !! k)
  ∧ (∀ k, (∀ b, bugs s !! att_bug_id d = Some b → k ≠ bug_id b) →
          bug_store (save s).2 !! k = bug_store s !! k).
Proof.
  intros Hd. rewrite (save_eq s d Hd). cbn [snd].
  rewrite saved_this, saved_attachments, saved_requests.
  split; [done|]. split; [done|]. split; [done|].
  unfold saved. destruct (bugs s !! att_bug_id d) as [b|]; [|done].
  destruct (bug_attachments b) as [[|att atts]|]; [done| |done]. cbn.
  split.
  - intros k Hk. by rewrite lookup_insert_ne.
  - intros k Hk. rewrite lookup_insert_ne; [done|]. intros Heq. by apply (Hk b).
Qed.

Lemma save_frame_witness :
  let d := set_att_data (Some "aGk=") att7 in
  let s := state_of (Some d) {[ 42 := bug42 (Some [att7]); 43 := bug42 None ]} in
  this (save s).2 = this s
  ∧ attachments (save s).2 = attachments s
  ∧ requests (save s).2 = requests s
  ∧ (∀ k, k ≠ 42 → bugs (save s).2 !! k = bugs s !! k)
  ∧ (∀ k, (∀ b, bugs s !! 42 = Some b → k ≠ bug_id b) →
          bug_store (save s).2 !! k = bug_store s !! k).
Proof.
  intros d s. apply (save_frame s d). reflexivity.
Defined.

(** X8: in the parent bug, [save] changes nothing but the payload of entries
    that carry [this.id] and have none: the list keeps its length, an entry
    with another id or with a payload stays as it is, and so do the other
    fields of the bug. *)
Theorem save_fills_stubs_only (s : state) (d : Attachment) (b : Bug)
    (atts : list Attachment) :
  data (this s) = Some d →
  bugs s !! att_bug_id d = Some b →
  bug_attachments b = Some atts →
  ∃ (b' : Bug) (atts' : list Attachment),
    bugs (save s).2 !! att_bug_id d = Some b'
    ∧ bug_attachments b' = Some atts'
    ∧ bug_id b' = bug_id b
    ∧ bug_comments b' = bug_comments b
    ∧ bug_history b' = bug_history b
    ∧ bug_last_visit b' = bug_last_visit b
    ∧ length atts' = length atts
    ∧ ∀ (i : nat) (att : Attachment), atts !! i = Some att →
        (id_strict_eq (att_id att) (id (this s)) = false ∨ truthy (att_data att) = true →
         atts' !! i = Some att)
        ∧ (id_strict_eq (att_id att) (id (this s)) = true → truthy (att_data att) = false →
           atts' !! i = Some (set_att_data (att_data d) att)).
Proof.
  intros Hd Hb Hatts. rewrite (save_eq s d Hd). cbn [snd].
  destruct atts as [|att0 atts].
  - exists b, []. unfold saved. rewrite Hb, Hatts.
    do 7 (split; [done|]). intros i att Hi. by rewrite lookup_nil in Hi.
  - destruct (saved_bugs d s b (att0 :: atts) Hb Hatts) as (-> & _ & _); [done|].
    eexists _, _. split; [by rewrite lookup_insert_eq|]. split; [done|].
    do 4 (split; [done|]). split; [by rewrite length_fmap|].
    intros i att Hi. rewrite list_lookup_fmap, Hi. cbn.
    destruct (fill_stub_cases (id (this s)) (att_data d) att)
      as [[-> Hcase] | (-> & Hid & Hdata)].
    + split; [done|]. intros Hid Hdata. destruct Hcase; congruence.
    + split; [|done]. intros [?|?]; congruence.
Qed.

Lemma save_fills_stubs_only_witness :
  let d := set_att_data (Some "aGk=") att7 in
  let other :=
    {| att_id := Some 8; att_hash := None; att_bug_id := 42; att_creation_time := 2000;
       att_is_patch := true; att_content_type := "text/plain"; att_data := None |} in
  let s := state_of (Some d) {[ 42 := bug42 (Some [other; att7]) ]} in
  ∃ (b' : Bug) (atts' : list Attachment),
    bugs (save s).2 !! 42 = Some b'
    ∧ bug_attachments b' = Some atts'
    ∧ bug_id b' = 42
    ∧ bug_comments b' = []
    ∧ bug_history b' = []
    ∧ bug_last_visit b' = None
    ∧ length atts' = 2%nat
    ∧ ∀ (i : nat) (att : Attachment), [other; att7] !! i = Some att →
        (id_strict_eq (att_id att) (inl 7) = false ∨ truthy (att_data att) = true →
         atts' !! i = Some att)
        ∧ (id_strict_eq (att_id att) (inl 7) = true → truthy (att_data att) = false →
           atts' !! i = Some (set_att_data (Some "aGk=") att)).
Proof.
  intros d other s.
  apply (save_fills_stubs_only s d (bug42 (Some [other; att7])) [other; att7]);
    reflexivity.
Defined.

Lemma fill_stubs_idempotent (i : ident) (v : option string) (l : list Attachment) :
  fill_stub i v <$> (fill_stub i v <$> l) = fill_stub i v <$> l.
Proof.
  rewrite <- list_fmap_compose. apply list_fmap_ext.
  intros k x _. apply fill_stub_idempotent.
Qed.

Lemma saved_twice (d : Attachment) (s : state) :
  bugs (saved d (saved d s)) = bugs (saved d s)
  ∧ bug_store (saved d (saved d s)) = bug_store (saved d s).
Proof.
  destruct (bugs s !! att_bug_id d) as [b|] eqn:Hb.
  - destruct (bug_attachments b) as [atts|] eqn:Hatts.
    + destruct (decide (atts = [])) as [->|Hne].
      * assert (Hs : saved d s = s) by (unfold saved; by rewrite Hb, Hatts).
        by rewrite !Hs.
      * destruct (saved_bugs d s b atts Hb Hatts Hne) as (Hbugs & Hstore & _).
        set (fill := fill_stub (id (this s)) (att_data d)) in *.
        set (b' := set_bug_attachments (Some (fill <$> atts)) b) in *.
        assert (Hb' : bugs (saved d s) !! att_bug_id d = Some b')
          by (by rewrite Hbugs, lookup_insert_eq).
        assert (Hne' : fill <$> atts ≠ []) by (by destruct atts).
        destruct (saved_bugs d (saved d s) b' (fill <$> atts) Hb' eq_refl Hne')
          as (-> & -> & _).
        rewrite saved_this. subst fill. rewrite (fill_stubs_idempotent _ _ atts).
        change (set_bug_attachments _ b') with b'.
        change (bug_id b') with (bug_id b).
        by rewrite Hbugs, Hstore, !insert_insert_eq.
    + assert (Hs : saved d s = s) by (unfold saved; by rewrite Hb, Hatts).
      by rewrite !Hs.
  - assert (Hs : saved d s = s) by (unfold saved; by rewrite Hb).
    by rewrite !Hs.
Qed.

(** X9: saving twice leaves the cached bugs and the store as saving once
    does; only the log of writes grows. *)
Theorem save_twice (s : state) (d : Attachment) :
  data (this s) = Some d →
  bugs (save (save s).2).2 = bugs (save s).2
  ∧ bug_store (save (save s).2).2 = bug_store (save s).2
  ∧ this (save (save s).2).2 = this s.
Proof.
  intros Hd. rewrite (save_eq s d Hd). cbn [snd].
  assert (Hd1 : data (this (saved d s)) = Some d) by (by rewrite saved_this).
  rewrite (save_eq _ d Hd1). cbn [snd]. rewrite !saved_this.
  destruct (saved_twice d s) as [-> ->]. done.
Qed.

Lemma save_twice_witness :
  let d := set_att_data (Some "aGk=") att7 in
  let s := state_of (Some d) {[ 42 := bug42 (Some [att7]) ]} in
  bugs (save (save s).2).2 = bugs (save s).2
  ∧ bug_store (save (save s).2).2 = bug_store (save s).2
  ∧ this (save (save s).2).2 = this s.
Proof.
  intros d s. apply (save_twice s d). reflexivity.
Defined.

(** X24: [get_data] sends at most one request, and only for the [data]
    field: none when the payload is at hand, one otherwise, whether it then
    resolves or not. *)
Theorem get_data_requests (tasks : worker) (h : host) (s : state) (d : Attachment) :
  data (this s) = Some d →
  requests (get_data tasks h s).2
  = if truthy (att_data d) then requests s else requests s ++ [data_request s].
Proof.
  intros Hd. destruct (truthy (att_data d)) eqn:Ht.
  - by rewrite (get_data_present_eq tasks h s d Hd Ht), (decode_eq tasks s d Hd).
  - rewrite (get_data_absent_eq tasks h s d Hd Ht). cbn zeta. fold (data_request s).
    destruct (h _) as [res|]; [|done].
    destruct (res_attachments res) as [m|]; [|done].
    destruct (m !! id (this s)) as [a|]; [|done].
    destruct (truthy (att_data a)); [|done].
    done.
Qed.

Lemma get_data_requests_witness :
  let s := state_of (Some att7) ∅ in
  requests (get_data tasks_stub host_payload s).2 = [data_request s]
  ∧ requests (get_data tasks_stub host_down s).2 = [data_request s]
  ∧ requests (get_data tasks_stub host_down
                (state_of (Some (set_att_data (Some "aGk=") att7)) ∅)).2 = [].
Proof.
  intros s. split; [|split].
  - apply (get_data_requests tasks_stub host_payload s att7). reflexivity.
  - apply (get_data_requests tasks_stub host_down s att7). reflexivity.
  - apply (get_data_requests tasks_stub host_down
             (state_of (Some (set_att_data (Some "aGk=") att7)) ∅)
             (set_att_data (Some "aGk=") att7)). reflexivity.
Defined.

End AttachmentExtras.

(** ** More on the schema upgrade *)

Module AccountDataSourceExtras.
Import AccountDataSource.

Definition bugs_store_v1 : object_store :=
  {| key_path := "id";
     indexes := {[ "alias" := {| index_key_path := "alias"; index_unique := true |} ]} |}.

Definition bugs_store_v2 : object_store :=
  {| key_path := "id"; indexes := ∅ |}.

(** *** Equations of the two blocks *)

Lemma create_initial_stores_eq (db : database) :
  create_initial_stores db
  = if decide (db !! "bugs" = None ∧ db !! "users" = None ∧ db !! "prefs" = None)
    then Resolved (<["prefs" := prefs_store]>
                     (<["users" := users_store]> (<["bugs" := bugs_store_v1]> db)))
    else Rejected ConstraintError.
Proof.
  unfold create_initial_stores, createObjectStore, createIndex.
  destruct (db !! "bugs") eqn:Hbugs; cbn.
  { rewrite decide_False; [done | by intros [? _]]. }
  rewrite lookup_insert_eq. cbn. rewrite lookup_empty. cbn.
  rewrite insert_insert_eq, insert_empty, lookup_insert_ne by done.
  destruct (db !! "users") eqn:Husers; cbn.
  { rewrite decide_False; [done | by intros (_ & ? & _)]. }
  rewrite lookup_insert_eq. cbn. rewrite lookup_empty. cbn.
  rewrite insert_insert_eq, insert_empty, !lookup_insert_ne by done.
  destruct (db !! "prefs") eqn:Hprefs; cbn.
  { rewrite decide_False; [done | by intros (_ & _ & ?)]. }
  by rewrite decide_True.
Qed.

Lemma drop_alias_index_eq (db : database) :
  drop_alias_index db
  = match db !! "bugs" with
    | Some st =>
        if decide (is_Some (indexes st !! "alias"))
        then Resolved (<["bugs" := {| key_path := key_path st;
                                      indexes := delete "alias" (indexes st) |}]> db)
        else Rejected NotFoundError
    | None => Rejected NotFoundError
    end.
Proof.
  unfold drop_alias_index, deleteIndex. destruct (db !! "bugs") as [st|]; [|done].
  destruct (indexes st !! "alias") eqn:Halias.
  - by rewrite decide_True.
  - rewrite decide_False; [done|]. by intros [? ?].
Qed.

(** X10: on a database of version 0 the upgrade goes through only if none of
    the names [bugs], [users], [prefs] is taken; it then adds the three
    stores in their version-2 shape and leaves every other store alone. *)
Theorem upgrade_from_0 (oldVersion : Z) (db db' : database) :
  oldVersion < 1 →
  onupgradeneeded oldVersion db = Resolved db' →
  (db !! "bugs" = None ∧ db !! "users" = None ∧ db !! "prefs" = None)
  ∧ db' !! "bugs" = Some bugs_store_v2
  ∧ db' !! "users" = Some users_store
  ∧ db' !! "prefs" = Some prefs_store
  ∧ ∀ name, name ≠ "bugs" → name ≠ "users" → name ≠ "prefs" → db' !! name = db !! name.
Proof.
  intros Hold. unfold onupgradeneeded.
  assert (H1 : (oldVersion <? 1) = true) by lia.
  assert (H2 : (oldVersion <? 2) = true) by lia.
  rewrite H1, create_initial_stores_eq. case_decide as Hfree; [|done]. cbn.
  rewrite H2, drop_alias_index_eq, !lookup_insert_ne, lookup_insert_eq by done.
  rewrite decide_True by (by eexists). cbn. intros [= <-].
  split; [done|]. split; [by rewrite lookup_insert_eq|].
  split; [by rewrite !lookup_insert_ne, lookup_insert_eq by done|].
  split; [by rewrite !lookup_insert_ne, lookup_insert_eq by done|].
  intros name ? ? ?. by rewrite !lookup_insert_ne by done.
Qed.

Lemma upgrade_from_0_witness :
  let db : database := {[ "drafts" := prefs_store ]} in
  ∃ db', onupgradeneeded 0 db = Resolved db'
    ∧ (db !! "bugs" = None ∧ db !! "users" = None ∧ db !! "prefs" = None)
    ∧ db' !! "bugs" = Some bugs_store_v2
    ∧ db' !! "users" = Some users_store
    ∧ db' !! "prefs" = Some prefs_store
    ∧ ∀ name, name ≠ "bugs" → name ≠ "users" → name ≠ "prefs" → db' !! name = db !! name.
Proof.
  intros db. eexists. split; [reflexivity|].
  apply (upgrade_from_0 0 db); [lia | reflexivity].
Defined.

(** X11: on a database of version 0 in which one of the three names is
    taken, the upgrade fails with a [ConstraintError]. *)
Theorem upgrade_from_0_name_taken (oldVersion : Z) (db : database) :
  oldVersion < 1 →
  is_Some (db !! "bugs") ∨ is_Some (db !! "users") ∨ is_Some (db !! "prefs") →
  onupgradeneeded oldVersion db = Rejected ConstraintError.
Proof.
  intros Hold Htaken. unfold onupgradeneeded.
  assert (H1 : (oldVersion <? 1) = true) by lia.
  rewrite H1, create_initial_stores_eq. rewrite decide_False; [done|].
  intros (Hb & Hu & Hp). rewrite Hb, Hu, Hp in Htaken.
  destruct Htaken as [[? ?]|[[? ?]|[? ?]]]; done.
Qed.

Lemma upgrade_from_0_name_taken_witness :
  onupgradeneeded 0 AccountDataSource.spec_schema_v2 = Rejected ConstraintError.
Proof.
  apply (upgrade_from_0_name_taken 0 spec_schema_v2); [lia|].
  left. by eexists.
Defined.

(** X12: from version 1 the upgrade changes one thing: the [alias] index of
    [bugs], which has to be there, is gone; the key path and the other
    indexes of [bugs], and every other store, are as before. *)
Theorem upgrade_from_1 (db db' : database) :
  onupgradeneeded 1 db = Resolved db' →
  ∃ st, db !! "bugs" = Some st
    ∧ is_Some (indexes st !! "alias")
    ∧ db' !! "bugs" = Some {| key_path := key_path st;
                              indexes := delete "alias" (indexes st) |}
    ∧ ∀ name, name ≠ "bugs" → db' !! name = db !! name.
Proof.
  unfold onupgradeneeded. cbn. rewrite drop_alias_index_eq.
  destruct (db !! "bugs") as [st|] eqn:Hbugs; [|done].
  case_decide as Halias; [|done]. cbn. intros [= <-].
  exists st. split; [done|]. split; [done|].
  split; [by rewrite lookup_insert_eq|].
  intros name ?. by rewrite lookup_insert_ne.
Qed.

Lemma upgrade_from_1_witness :
  ∃ db' st, onupgradeneeded 1 spec_schema_v1 = Resolved db'
    ∧ spec_schema_v1 !! "bugs" = Some st
    ∧ is_Some (indexes st !! "alias")
    ∧ db' !! "bugs" = Some {| key_path := key_path st;
                              indexes := delete "alias" (indexes st) |}
    ∧ ∀ name, name ≠ "bugs" → db' !! name = spec_schema_v1 !! name.
Proof.
  eexists.
  destruct (upgrade_from_1 spec_schema_v1 _ eq_refl) as (st & H).
  exists st. split; [reflexivity | exact H].
Defined.

(** X13: from version 1, a database without a [bugs] store, or whose [bugs]
    store has no [alias] index, makes the upgrade fail with a
    [NotFoundError]. *)
Theorem upgrade_from_1_no_alias (db : database) :
  (db !! "bugs" = None
   ∨ ∃ st, db !! "bugs" = Some st ∧ indexes st !! "alias" = None) →
  onupgradeneeded 1 db = Rejected NotFoundError.
Proof.
  unfold onupgradeneeded. cbn. rewrite drop_alias_index_eq.
  intros [-> | (st & -> & Halias)]; [done|].
  rewrite decide_False; [done|]. rewrite Halias. by intros [? ?].
Qed.

Lemma upgrade_from_1_no_alias_witness :
  onupgradeneeded 1 ∅ = Rejected NotFoundError
  ∧ onupgradeneeded 1 spec_schema_v2 = Rejected NotFoundError.
Proof.
  split.
  - apply (upgrade_from_1_no_alias ∅). by left.
  - apply (upgrade_from_1_no_alias spec_schema_v2). right.
    exists bugs_store_v2. split; reflexivity.
Defined.

(** X14: an upgrade from a version below 2 that went through leaves a [bugs]
    store without [alias] index; run again on its result it fails, for the
    old version 0 and for the old version 1, while from version 2 on the
    handler changes nothing. *)
Theorem upgrade_not_repeatable (oldVersion : Z) (db db' : database) :
  oldVersion < 2 →
  onupgradeneeded oldVersion db = Resolved db' →
  (∃ st, db' !! "bugs" = Some st ∧ indexes st !! "alias" = None)
  ∧ onupgradeneeded 0 db' = Rejected ConstraintError
  ∧ onupgradeneeded 1 db' = Rejected NotFoundError
  ∧ ∀ v, 2 ≤ v → onupgradeneeded v db' = Resolved db'.
Proof.
  intros Hold Hup.
  assert (Hbugs : ∃ st, db' !! "bugs" = Some st ∧ indexes st !! "alias" = None).
  { unfold onupgradeneeded in Hup. destruct (decide (oldVersion < 1)) as [H0|H0].
    - assert (H1 : (oldVersion <? 1) = true) by lia.
      assert (H2 : (oldVersion <? 2) = true) by lia.
      rewrite H1, create_initial_stores_eq in Hup. case_decide; [|done]. cbn in Hup.
      rewrite H2, drop_alias_index_eq, !lookup_insert_ne, lookup_insert_eq in Hup by done.
      rewrite decide_True in Hup by (by eexists). cbn in Hup. injection Hup as <-.
      eexists. split; [apply lookup_insert_eq | apply lookup_delete_eq].
    - assert (oldVersion = 1) as -> by lia. cbn in Hup.
      rewrite drop_alias_index_eq in Hup.
      destruct (db !! "bugs") as [st|]; [|done]. case_decide; [|done].
      cbn in Hup. injection Hup as <-.
      eexists. split; [apply lookup_insert_eq | apply lookup_delete_eq]. }
  split; [done|]. destruct Hbugs as (st & Hst & Halias).
  split; [|split].
  - unfold onupgradeneeded. cbn. rewrite create_initial_stores_eq, decide_False; [done|].
    intros [Hb _]. congruence.
  - unfold onupgradeneeded. cbn. rewrite drop_alias_index_eq, Hst, decide_False; [done|].
    rewrite Halias. by intros [? ?].
  - intros v Hv. unfold onupgradeneeded.
    assert (H1 : (v <? 1) = false) by lia.
    assert (H2 : (v <? 2) = false) by lia.
    rewrite H1. cbn. by rewrite H2.
Qed.

Lemma upgrade_not_repeatable_witness :
  (∃ st, spec_schema_v2 !! "bugs" = Some st ∧ indexes st !! "alias" = None)
  ∧ onupgradeneeded 0 spec_schema_v2 = Rejected ConstraintError
  ∧ onupgradeneeded 1 spec_schema_v2 = Rejected NotFoundError
  ∧ ∀ v, 2 ≤ v → onupgradeneeded v spec_schema_v2 = Resolved spec_schema_v2.
Proof.
  apply (upgrade_not_repeatable 1 spec_schema_v1 spec_schema_v2); [lia | reflexivity].
Defined.

End AccountDataSourceExtras.

(** ** More on the timeline *)

Module TimelineExtras.
Import JsMap JsMapFacts ArraySort ArraySortFacts BugTimelineView TimelineFacts.

(** *** Keys of a [Map] built by [set] *)
Section keys.
Context {K V : Type} `{!EqDecision K}.
Implicit Types (k : K) (v : V) (m l : list (K * V)).

Lemma elem_of_keys_set k k' v m : k' ∈ keys (set k v m) ↔ k' = k ∨ k' ∈ keys m.
Proof.
  destruct (decide (k ∈ keys m)) as [Hin|Hnin].
  - rewrite keys_set_old by done. split; [by right | by intros [->|?]].
  - rewrite keys_set_new by done. rewrite elem_of_app, list_elem_of_singleton. tauto.
Qed.

Lemma elem_of_keys_foldl_set k l m :
  k ∈ keys (foldl (λ m kv, set kv.1 kv.2 m) m l) ↔ k ∈ keys m ∨ k ∈ keys l.
Proof.
  revert m. induction l as [|[k0 v0] l IH]; intros m; simpl.
  - split; [by left | intros [?|Hin]; [done | by apply elem_of_nil in Hin]].
  - rewrite IH, elem_of_keys_set. unfold keys. simpl. rewrite elem_of_cons. tauto.
Qed.

Lemma elem_of_keys_from_entries k l : k ∈ keys (from_entries l) ↔ k ∈ keys l.
Proof.
  unfold from_entries. rewrite elem_of_keys_foldl_set. split; [|by right].
  intros [Hin|?]; [by apply elem_of_nil in Hin | done].
Qed.
End keys.

(** *** The timestamps of the timeline *)

Definition comment_times (bug : Bug) : list Z :=
  get_time ∘ comment_creation_time <$> bug_comments bug.
Definition history_times (bug : Bug) : list Z :=
  get_time ∘ history_when <$> bug_history bug.

Lemma keys_comment_entries (comments : list Comment) (t : Z) :
  t ∈ keys (comment_entries comments) ↔ t ∈ (get_time ∘ comment_creation_time <$> comments).
Proof.
  unfold comment_entries. rewrite elem_of_keys_from_entries.
  unfold keys. by rewrite <- list_fmap_compose.
Qed.

Lemma keys_foldl_add_history (history : list History) (entries : entry_map) (t : Z) :
  t ∈ keys (foldl add_history entries history)
  ↔ t ∈ keys entries ∨ t ∈ (get_time ∘ history_when <$> history).
Proof.
  revert entries. induction history as [|h history IH]; intros entries; simpl.
  - split; [by left | intros [?|Hin]; [done | by apply elem_of_nil in Hin]].
  - rewrite IH, elem_of_cons. unfold add_history.
    destruct (get (get_time (history_when h)) entries); rewrite elem_of_keys_set; tauto.
Qed.

Lemma keys_merge (bug : Bug) (merged : entry_map) (t : Z) :
  merge bug = Resolved merged →
  t ∈ keys merged ↔ t ∈ comment_times bug ∨ t ∈ history_times bug.
Proof.
  unfold merge. destruct (bug_attachments bug) as [attachments|]; [|done]. simpl.
  destruct (for_of _ _ _) as [entries|] eqn:Hatt; [|done]. simpl.
  intros [= <-]. rewrite keys_foldl_add_history.
  apply add_attachments_resolved in Hatt as [-> _].
  by rewrite keys_comment_entries.
Qed.

Lemma keys_entries (e : engine) (bug : Bug) (delayed : bool) (v : view) :
  constructor e bug delayed = Resolved v →
  ∃ merged, merge bug = Resolved merged ∧ keys (entries v) ≡ₚ keys merged.
Proof.
  intros (merged & Hmerge & Hentries & _)%constructor_resolved.
  exists merged. split; [done|]. rewrite Hentries.
  assert (Hfst : keys (marked delayed (bug_last_visit bug) <$> sort e by_time merged)
                 = keys (sort e by_time merged)).
  { unfold keys. rewrite <- list_fmap_compose. apply list_fmap_ext.
    intros i entry _. apply marked_time. }
  rewrite Hfst. unfold keys. by rewrite (sort_perm by_time e merged).
Qed.

(** X15: the timeline has one record per instant: its timestamps are
    distinct, and they are the creation times of the comments together with
    the times of the changes. *)
Theorem timeline_timestamps (e : engine) (bug : Bug) (delayed : bool) (v : view) :
  constructor e bug delayed = Resolved v →
  NoDup (keys (entries v))
  ∧ ∀ t, t ∈ keys (entries v) ↔ t ∈ comment_times bug ∨ t ∈ history_times bug.
Proof.
  intros Hv. destruct (keys_entries e bug delayed v Hv) as (merged & Hmerge & Hperm).
  split.
  - rewrite Hperm. by apply (merge_NoDup bug).
  - intros t. rewrite Hperm. by apply keys_merge.
Qed.

Lemma timeline_timestamps_witness :
  ∃ v, constructor V8 bug_revisited false = Resolved v
    ∧ NoDup (keys (entries v))
    ∧ ∀ t, t ∈ keys (entries v) ↔ t ∈ [1; 2; 6] ∨ t ∈ [2].
Proof.
  eexists. split; [reflexivity|].
  apply (timeline_timestamps V8 bug_revisited false). reflexivity.
Defined.

(** *** What the records hold *)

Lemma marked_get (delayed : bool) (last_visit : option date_string)
    (entry : Z * entry_data) (k : string) :
  k ≠ "time" → k ≠ "rendering" →
  get k (marked delayed last_visit entry).2 = get k entry.2.
Proof.
  intros Ht Hr. unfold marked, mark_entry. destruct (is_read _ _ _); simpl.
  - by rewrite get_set_ne.
  - by rewrite !get_set_ne.
Qed.

Lemma entries_lookup2 (e : engine) (bug : Bug) (delayed : bool) (v : view)
    (merged : entry_map) (t : Z) (k : string) (x : value) :
  constructor e bug delayed = Resolved v →
  merge bug = Resolved merged →
  k ≠ "time" → k ≠ "rendering" →
  lookup2 t k merged = Some x →
  ∃ data, (t, data) ∈ entries v ∧ get k data = Some x.
Proof.
  intros (merged' & Hmerge & Hentries & _)%constructor_resolved Hmerge' Ht Hr Hlook.
  rewrite Hmerge in Hmerge'. injection Hmerge' as ->.
  unfold lookup2 in Hlook.
  destruct (get t merged) as [data0|] eqn:Hget; [|done]. simpl in Hlook.
  exists (marked delayed (bug_last_visit bug) (t, data0)).2. split.
  - rewrite Hentries. apply list_elem_of_fmap. exists (t, data0). split.
    + destruct (marked_time delayed (bug_last_visit bug) (t, data0)) as [Hfst _].
      destruct (marked _ _ _) as [t' data']. simpl in *. by subst t'.
    + apply elem_of_sort. by apply get_Some_elem_of.
  - by rewrite marked_get.
Qed.

(** X16: when the constructor goes through and no two comments, no two
    attachments and no two changes share a timestamp, every comment, every
    attachment and every change is in the timeline, in the record of its
    timestamp. *)
Theorem timeline_complete (e : engine) (bug : Bug) (delayed : bool) (v : view)
    (attachments : list Attachment) :
  constructor e bug delayed = Resolved v →
  bug_attachments bug = Some attachments →
  NoDup (comment_times bug) →
  NoDup (get_time ∘ att_creation_time <$> attachments) →
  NoDup (history_times bug) →
  (∀ c, c ∈ bug_comments bug →
     ∃ data, (get_time (comment_creation_time c), data) ∈ entries v
             ∧ get "comment" data = Some (VComment c))
  ∧ (∀ a, a ∈ attachments →
     ∃ data, (get_time (att_creation_time a), data) ∈ entries v
             ∧ get "attachment" data = Some (VAttachment a))
  ∧ (∀ h, h ∈ bug_history bug →
     ∃ data, (get_time (history_when h), data) ∈ entries v
             ∧ get "history" data = Some (VHistory h)).
Proof.
  intros Hv Hatts Hc Ha Hh.
  destruct (constructor_resolved e bug delayed v Hv) as (merged & Hmerge & _).
  destruct (merge_complete bug attachments merged Hmerge Hatts Hc Ha Hh)
    as (Hcs & Has & Hhs).
  split; [|split].
  - intros c Hin. by apply (entries_lookup2 e bug delayed v merged), Hcs.
  - intros a Hin. by apply (entries_lookup2 e bug delayed v merged), Has.
  - intros h Hin. by apply (entries_lookup2 e bug delayed v merged), Hhs.
Qed.

(** Comments at 1 and 3, the second with an attachment, and changes at 2
    and 3. *)
Definition bug_busy : Bug :=
  {| bug_id := 42; bug_comments := [comment_at 1; comment_at 3];
     bug_attachments := Some [attachment_at 3];
     bug_history := [history_at 2; history_at 3]; bug_last_visit := None |}.

Lemma timeline_complete_witness :
  ∃ v, constructor SpiderMonkey bug_busy false = Resolved v
    ∧ (∀ c, c ∈ bug_comments bug_busy →
         ∃ data, (get_time (comment_creation_time c), data) ∈ entries v
                 ∧ get "comment" data = Some (VComment c))
    ∧ (∀ a, a ∈ [attachment_at 3] →
         ∃ data, (get_time (att_creation_time a), data) ∈ entries v
                 ∧ get "attachment" data = Some (VAttachment a))
    ∧ (∀ h, h ∈ bug_history bug_busy →
         ∃ data, (get_time (history_when h), data) ∈ entries v
                 ∧ get "history" data = Some (VHistory h)).
Proof.
  eexists. split; [reflexivity|].
  apply (timeline_complete SpiderMonkey bug_busy false _ [attachment_at 3]);
    try reflexivity.
  - apply (bool_decide_unpack _). by vm_compute.
  - apply NoDup_singleton.
  - apply (bool_decide_unpack _). by vm_compute.
Defined.

(** *** When the constructor goes through *)

Lemma add_attachments_resolves (attachments : list Attachment) (entries : entry_map) :
  (∀ a, a ∈ attachments → get_time (att_creation_time a) ∈ keys entries) →
  is_resolved (for_of add_attachment attachments entries) = true.
Proof.
  revert entries. induction attachments as [|a attachments IH]; intros entries Hall; [done|].
  simpl. unfold add_attachment at 2.
  assert (Ha : get_time (att_creation_time a) ∈ keys entries)
    by (apply Hall, list_elem_of_here).
  destruct (get (get_time (att_creation_time a)) entries) as [data|] eqn:Hget.
  - simpl. apply IH. intros a' Ha'. rewrite keys_set_old by done.
    by apply Hall, list_elem_of_further.
  - apply get_None in Hget. done.
Qed.

Lemma merge_rejected (bug : Bug) (err : error) :
  merge bug = Rejected err → err = TypeError.
Proof.
  unfold merge. destruct (bug_attachments bug) as [attachments|]; [|by intros [= <-]].
  simpl. generalize (comment_entries (bug_comments bug)).
  induction attachments as [|a attachments IH]; intros entries; simpl; [done|].
  unfold add_attachment at 2.
  destruct (get (get_time (att_creation_time a)) entries); simpl; [|by intros [= <-]].
  apply IH.
Qed.

(** X17: the constructor goes through exactly when the bug has a list of
    attachments and each attachment was created at the very instant of some
    comment; when it does not, what is thrown is a [TypeError]. *)
Theorem constructor_resolves_iff (e : engine) (bug : Bug) (delayed : bool) :
  (is_resolved (constructor e bug delayed) = true
   ↔ ∃ attachments, bug_attachments bug = Some attachments
       ∧ ∀ a, a ∈ attachments → get_time (att_creation_time a) ∈ comment_times bug)
  ∧ (∀ err, constructor e bug delayed = Rejected err → err = TypeError).
Proof.
  assert (Hcons : is_resolved (constructor e bug delayed) = is_resolved (merge bug)
                  ∧ ∀ err, constructor e bug delayed = Rejected err → merge bug = Rejected err).
  { unfold constructor. destruct (merge bug) as [merged|err]; simpl.
    - destruct (mark_entries _ _ _ _). by split.
    - split; [done|]. by intros err0 [= <-]. }
  destruct Hcons as [Hres Hrej]. split.
  - rewrite Hres. split.
    + destruct (merge bug) as [merged|] eqn:Hmerge; [intros _|done].
      destruct (merge_resolved_attachments bug merged Hmerge) as (atts & Hatts & Hall).
      exists atts. split; [done|]. intros a Ha.
      destruct (Hall a Ha) as (c & Hc & <-).
      unfold comment_times. apply list_elem_of_fmap. by exists c.
    + intros (atts & Hatts & Hall). unfold merge. rewrite Hatts. simpl.
      pose proof (add_attachments_resolves atts (comment_entries (bug_comments bug))) as Hadd.
      destruct (for_of _ _ _); [done|]. apply Hadd.
      intros a Ha. apply keys_comment_entries. by apply Hall.
  - intros err Herr. by apply (merge_rejected bug), Hrej.
Qed.

(** *** The order *)

Lemma constructor_SpiderMonkey_ascending_witness :
  ∃ v, constructor SpiderMonkey bug_busy false = Resolved v
    ∧ keys (entries v) = [1; 2; 3]
    ∧ StronglySorted Z.lt (keys (entries v)).
Proof.
  eexists. split; [reflexivity|]. split; [reflexivity|].
  apply (constructor_SpiderMonkey_ascending bug_busy false). reflexivity.
Defined.

Lemma entry_keys_order_witness :
  let data := [("comment", VComment (comment_at 3));
               ("attachment", VAttachment (attachment_at 3));
               ("history", VHistory (history_at 3));
               ("time", VTime 3); ("rendering", VBool true)] in
  ∃ v, constructor V8 bug_busy false = Resolved v
    ∧ (3, data) ∈ entries v
    ∧ keys data `sublist_of` ["comment"; "attachment"; "history"; "time"; "rendering"].
Proof.
  intros data. eexists. split; [reflexivity|].
  assert (Hin : (3, data) ∈ [(1, [("comment", VComment (comment_at 1)); ("time", VTime 1);
                                  ("rendering", VBool true)]);
                             (3, data);
                             (2, [("history", VHistory (history_at 2)); ("time", VTime 2);
                                  ("rendering", VBool true)])]).
  { apply list_elem_of_further, list_elem_of_here. }
  split; [exact Hin|].
  exact (entry_keys_order V8 bug_busy false _ 3 data eq_refl Hin).
Defined.

(** X20: a record of the timeline holds a comment or a change, and one that
    holds an attachment holds a comment too. *)
Theorem attachment_with_comment (e : engine) (bug : Bug) (delayed : bool) (v : view)
    (time : Z) (data : entry_data) :
  constructor e bug delayed = Resolved v →
  (time, data) ∈ entries v →
  (has "comment" data = true ∨ has "history" data = true)
  ∧ (has "attachment" data = true → has "comment" data = true).
Proof.
  intros Hv Hin.
  destruct (entries_origin e bug delayed v _ Hv Hin) as (entry0 & Heq & Hk).
  assert (Hhas : ∀ k, k ≠ "time" → k ≠ "rendering" → has k data = true ↔ k ∈ keys entry0.2).
  { intros k Ht Hr. rewrite <- has_true. unfold has.
    rewrite <- (marked_get delayed (bug_last_visit bug) entry0 k Ht Hr). by rewrite <- Heq. }
  rewrite !Hhas by done.
  unfold history_keys in Hk. rewrite !elem_of_cons in Hk.
  destruct Hk as [-> | [-> | [-> | [-> | [-> | Hk]]]]];
    try (by apply elem_of_nil in Hk);
    apply (bool_decide_unpack _); by vm_compute.
Qed.

Lemma attachment_with_comment_witness :
  let data := [("comment", VComment (comment_at 3));
               ("attachment", VAttachment (attachment_at 3));
               ("history", VHistory (history_at 3));
               ("time", VTime 3); ("rendering", VBool true)] in
  ∃ v, constructor SpiderMonkey bug_busy false = Resolved v
    ∧ (has "comment" data = true ∨ has "history" data = true)
    ∧ (has "attachment" data = true → has "comment" data = true).
Proof.
  intros data. eexists. split; [reflexivity|].
  refine (attachment_with_comment SpiderMonkey bug_busy false _ 3 data eq_refl _).
  do 2 apply list_elem_of_further. apply list_elem_of_here.
Defined.

(** *** The expander *)

(** X21: the expander counts the comments that were read: with [n] records
    before the last visit that hold a comment, there is an expander only if
    [n] is 2 or more, and it announces [n - 1] older comments. *)
Theorem expander_count (e : engine) (bug : Bug) (delayed : bool) (v : view) :
  constructor e bug delayed = Resolved v →
  let n := length (filter (read_comment delayed (bug_last_visit bug)) (entries v)) in
  ((n ≤ 1)%nat → expander v = None)
  ∧ ((2 ≤ n)%nat → expander v = Some (n - 1)%nat).
Proof.
  unfold constructor. destruct (merge bug) as [merged|] eqn:Hmerge; [|done]. simpl.
  pose proof (mark_entries_eq delayed (bug_last_visit bug)
                {| read_comments_num := 0; last_comment_time := None |}
                (from_entries (sort e by_time merged))) as [Hmarked _].
  pose proof (mark_entries_count delayed (bug_last_visit bug)
                {| read_comments_num := 0; last_comment_time := None |}
                (from_entries (sort e by_time merged))) as Hcount.
  destruct (mark_entries _ _ _ _) as [m es]. simpl in *.
  intros [= <-]. simpl. rewrite Hmarked, filter_read_comment_marked, Hcount.
  split; intros Hn.
  - by rewrite bool_decide_eq_false_2 by lia.
  - by rewrite bool_decide_eq_true_2 by lia.
Qed.

Lemma expander_count_witness :
  ∃ v, constructor SpiderMonkey bug_revisited false = Resolved v
    ∧ length (filter (read_comment false (Some 5)) (entries v)) = 2%nat
    ∧ expander v = Some 1%nat.
Proof.
  eexists. split; [reflexivity|]. split; [reflexivity|].
  refine (proj2 (expander_count SpiderMonkey bug_revisited false _ eq_refl) _).
  vm_compute. lia.
Defined.

(** *** What is rendered at once, again *)

Lemma entries_rendering (e : engine) (bug : Bug) (delayed : bool) (v : view)
    (time : Z) (data : entry_data) :
  constructor e bug delayed = Resolved v →
  (time, data) ∈ entries v →
  get "rendering" data
  = if is_read delayed (bug_last_visit bug) time then None else Some (VBool true).
Proof.
  intros Hv Hin.
  destruct (entries_origin e bug delayed v _ Hv Hin) as (entry0 & Heq & Hk).
  pose proof (marked_rendering delayed (bug_last_visit bug) entry0
                (history_keys_no_rendering _ Hk)) as Hr.
  pose proof (marked_time delayed (bug_last_visit bug) entry0) as [Ht _].
  rewrite <- Heq in Hr, Ht. simpl in Hr, Ht. by subst time.
Qed.

(** X22: in delayed mode, or when the bug has no last visit, every record is
    marked ['rendering'], all of them are rendered at once in the order of
    the timeline, and there is no expander. *)
Theorem all_rendered_at_once (e : engine) (bug : Bug) (delayed : bool) (v : view) :
  delayed = true ∨ bug_last_visit bug = None →
  constructor e bug delayed = Resolved v →
  (∀ time data, (time, data) ∈ entries v → get "rendering" data = Some (VBool true))
  ∧ data_arr v = (entries v).*2
  ∧ expander v = None.
Proof.
  intros Hmode Hv.
  assert (Hread : ∀ t, is_read delayed (bug_last_visit bug) t = false).
  { intros t. unfold is_read. destruct Hmode as [-> | ->]; [done|].
    by destruct delayed. }
  assert (Hall : ∀ time data, (time, data) ∈ entries v →
                   get "rendering" data = Some (VBool true)).
  { intros time data Hin. rewrite (entries_rendering e bug delayed v _ _ Hv Hin).
    by rewrite Hread. }
  split; [done|]. split.
  - destruct (constructor_resolved e bug delayed v Hv) as (_ & _ & _ & m & _ & ->).
    f_equal.
    assert (Hfilter : ∀ l : entry_map, (∀ x, x ∈ l → x ∈ entries v) →
              filter (λ entry, rendered_at_once m entry = true) l = l).
    { induction l as [|[t d] l IH]; intros Hsub; [done|].
      rewrite filter_cons. rewrite decide_True.
      - f_equal. apply IH. intros x Hx. by apply Hsub, list_elem_of_further.
      - unfold rendered_at_once, has. simpl.
        by rewrite (Hall t d) by (apply Hsub, list_elem_of_here). }
    by apply Hfilter.
  - rewrite (constructor_expander e bug delayed v Hv).
    assert (Hnone : ∀ l : entry_map,
              filter (read_comment delayed (bug_last_visit bug)) l = []).
    { induction l as [|x l IH]; [done|]. rewrite filter_cons, decide_False; [done|].
      unfold read_comment. rewrite Hread. by intros [? _]. }
    by rewrite Hnone.
Qed.

Lemma all_rendered_at_once_witness :
  ∃ v, constructor SpiderMonkey bug_revisited true = Resolved v
    ∧ (∀ time data, (time, data) ∈ entries v → get "rendering" data = Some (VBool true))
    ∧ data_arr v = (entries v).*2
    ∧ expander v = None.
Proof.
  eexists. split; [reflexivity|].
  apply (all_rendered_at_once SpiderMonkey bug_revisited true); [by left | reflexivity].
Defined.

(** In a sorted list, the elements that pass a test which, once passed, is
    passed by everything that follows, are the end of the list. *)
Lemma filter_tail {A : Type} (R : relation A) (P : A → Prop) `{!∀ x, Decision (P x)}
    (l : list A) :
  StronglySorted R l →
  (∀ x y, x ∈ l → y ∈ l → R x y → P x → P y) →
  ∃ before, l = before ++ filter P l.
Proof.
  induction 1 as [|x l Hl IH Hx]; intros Hup; [by exists []|].
  rewrite filter_cons. case_decide as HPx.
  - exists []. simpl. f_equal.
    assert (Hall : ∀ k : list A, (∀ y, y ∈ k → y ∈ l) → filter P k = k).
    { induction k as [|y k IHk]; intros Hsub; [done|].
      rewrite filter_cons, decide_True.
      - f_equal. apply IHk. intros z Hz. by apply Hsub, list_elem_of_further.
      - assert (Hy : y ∈ l) by apply Hsub, list_elem_of_here.
        apply (Hup x y); [apply list_elem_of_here | by apply list_elem_of_further | | done].
        rewrite Forall_forall in Hx. by apply Hx. }
    symmetry. by apply Hall.
  - destruct IH as [before Hbefore].
    { intros y z Hy Hz. apply Hup; by apply list_elem_of_further. }
    exists (x :: before). simpl. by f_equal.
Qed.

(** X23: on an engine that looks for a positive result, what is rendered at
    once is the end of the timeline: the timeline is the records held back
    followed by the records rendered, and every record held back is older
    than every record rendered. *)
Theorem data_arr_tail (bug : Bug) (delayed : bool) (v : view) :
  constructor SpiderMonkey bug delayed = Resolved v →
  ∃ older shown : entry_map,
    entries v = older ++ shown
    ∧ data_arr v = shown.*2
    ∧ ∀ x y, x ∈ older → y ∈ shown → x.1 < y.1.
Proof.
  intros Hv.
  destruct (constructor_resolved SpiderMonkey bug delayed v Hv)
    as (merged & Hmerge & Hentries & m & Hm & Harr).
  set (P := λ entry : Z * entry_data, rendered_at_once m entry = true).
  assert (Hsorted : StronglySorted (λ a b : Z * entry_data, a.1 ≤ b.1) (entries v)).
  { rewrite Hentries.
    apply (StronglySorted_fmap _ (λ a b : Z * entry_data, a.1 ≤ b.1)
                                 (λ a b : Z * entry_data, a.1 ≤ b.1)).
    - intros x y. by rewrite !(proj1 (marked_time _ _ _)).
    - apply (sort_SpiderMonkey_sorted by_time fst by_time_positive). }
  assert (Hup : ∀ x y, x ∈ entries v → y ∈ entries v → x.1 ≤ y.1 → P x → P y).
  { intros [t d] [t' d'] Hx Hy Hle. unfold P, rendered_at_once, has. simpl in *.
    rewrite (entries_rendering _ bug delayed v _ _ Hv Hx),
            (entries_rendering _ bug delayed v _ _ Hv Hy), !orb_true_iff.
    intros [Hr|Hlast].
    - left. unfold is_read in *. destruct delayed; [done|]. simpl in *.
      destruct (bug_last_visit bug) as [lv|]; [|done].
      case_bool_decide; [done|]. rewrite bool_decide_eq_false_2; [done | lia].
    - right. destruct (last_comment_time m) as [t0|]; [|done].
      apply bool_decide_eq_true in Hlast. apply bool_decide_eq_true. lia. }
  destruct (filter_tail _ P (entries v) Hsorted Hup) as [older Holder].
  exists older, (filter P (entries v)). split; [done|]. split; [done|].
  intros x y Hx Hy.
  assert (Hle : x.1 ≤ y.1).
  { rewrite Holder in Hsorted.
    by apply (StronglySorted_app_1_elem_of _ _ _ _ _ Hsorted). }
  assert (Hne : x.1 ≠ y.1); [|lia].
  destruct (keys_entries SpiderMonkey bug delayed v Hv) as (merged' & Hmerge' & Hperm).
  pose proof (merge_NoDup bug merged' Hmerge') as Hnd. rewrite <- Hperm in Hnd.
  rewrite Holder in Hnd. unfold keys in Hnd. rewrite fmap_app in Hnd.
  apply NoDup_app in Hnd as (_ & Hdisj & _).
  intros Heq. apply (Hdisj x.1).
  - apply list_elem_of_fmap. by exists x.
  - rewrite Heq. apply list_elem_of_fmap. by exists y.
Qed.

Lemma data_arr_tail_witness :
  ∃ v (older shown : entry_map),
    constructor SpiderMonkey bug_revisited false = Resolved v
    ∧ entries v = older ++ shown
    ∧ data_arr v = shown.*2
    ∧ ∀ x y, x ∈ older → y ∈ shown → x.1 < y.1.
Proof.
  eexists.
  destruct (data_arr_tail bug_revisited false _ eq_refl) as (older & shown & H).
  exists older, shown. split; [reflexivity | exact H].
Defined.

(** X25: every record of the timeline carries, under ['time'], the timestamp
    it is filed under. *)
Theorem record_carries_time (e : engine) (bug : Bug) (delayed : bool) (v : view)
    (time : Z) (data : entry_data) :
  constructor e bug delayed = Resolved v →
  (time, data) ∈ entries v →
  get "time" data = Some (VTime time).
Proof.
  intros (merged & _ & Hentries & _)%constructor_resolved Hin.
  rewrite Hentries in Hin.
  apply list_elem_of_fmap in Hin as (entry0 & Heq & _).
  destruct (marked_time delayed (bug_last_visit bug) entry0) as [Ht Hget].
  rewrite <- Heq in Ht, Hget. simpl in Ht, Hget. by rewrite Ht.
Qed.

Lemma record_carries_time_witness :
  let data := [("history", VHistory (history_at 2)); ("time", VTime 2);
               ("rendering", VBool true)] in
  ∃ v, constructor SpiderMonkey bug_busy false = Resolved v
    ∧ get "time" data = Some (VTime 2).
Proof.
  intros data. eexists. split; [reflexivity|].
  refine (record_carries_time SpiderMonkey bug_busy false _ 2 data eq_refl _).
  apply list_elem_of_further, list_elem_of_here.
Defined.

End TimelineExtras.
